(** * Memory allocation simulation: first fit with splitting and coalescing

    A shallow embedding of [MemoryHeap/Memory Allocation Simulation.py].

    The Python program keeps its blocks as objects linked through [prev] and
    [next] attributes, and hands the very same objects out to the driver as
    handles.  Object identity and aliasing therefore matter: the embedding
    keeps an explicit object store (index = identity of the [Block] object),
    and every attribute read or write of the source is one access to that
    store. *)

From Stdlib Require Import ZArith Lia.
From stdpp Require Import base list.

(** ** The object store and the execution monad *)

(** A reference to a [Block] object: its index in the store. *)
Abbreviation ref := nat.

(** [class Block]: the five attributes set by [Block.__init__]. *)
Record Block := mkBlock {
  start : Z;
  size : Z;
  free : bool;
  prev : option ref;
  next : option ref
}.

Abbreviation heap := (list Block).

(** Outcome of running a piece of the program on a store: it returns a value
    and a new store, it raises (an attribute is read through [None] or through
    a reference that is no object), or the loop budget ran out. *)
Inductive result (A : Type) : Type :=
| Ret (a : A) (h : heap)
| Raise
| Diverge.
Arguments Ret {A} a h.
Arguments Raise {A}.
Arguments Diverge {A}.

Definition M (A : Type) : Type := heap → result A.

Definition ret {A} (a : A) : M A := fun h => Ret a h.

Definition bind {A B} (m : M A) (k : A → M B) : M B :=
  fun h => match m h with
           | Ret a h' => k a h'
           | Raise => Raise
           | Diverge => Diverge
           end.

Declare Scope prog_scope.
Delimit Scope prog_scope with prog.
Notation "x ← y ; z" := (bind y (fun x => z))
  (at level 20, y at level 100, z at level 200, only parsing) : prog_scope.
Notation "y ;; z" := (bind y (fun _ => z))
  (at level 100, z at level 200, only parsing, right associativity) : prog_scope.
Open Scope prog_scope.

(** [obj.attr] *)
Definition getattr {A} (f : Block → A) (r : ref) : M A :=
  fun h => match h !! r with
           | Some b => Ret (f b) h
           | None => Raise
           end.

(** [obj.attr = v], as an update of the object in place *)
Definition setattr (upd : Block → Block) (r : ref) : M unit :=
  fun h => match h !! r with
           | Some b => Ret tt (<[r := upd b]> h)
           | None => Raise
           end.

(** Attribute access on the value of an expression that may be [None]. *)
Definition deref (o : option ref) : M ref :=
  fun h => match o with
           | Some r => Ret r h
           | None => Raise
           end.

Definition with_size (z : Z) (b : Block) : Block :=
  mkBlock (start b) z (free b) (prev b) (next b).
Definition with_free (f : bool) (b : Block) : Block :=
  mkBlock (start b) (size b) f (prev b) (next b).
Definition with_prev (p : option ref) (b : Block) : Block :=
  mkBlock (start b) (size b) (free b) p (next b).
Definition with_next (n : option ref) (b : Block) : Block :=
  mkBlock (start b) (size b) (free b) (prev b) n.

Definition get_start : ref → M Z := getattr start.
Definition get_size : ref → M Z := getattr size.
Definition get_free : ref → M bool := getattr free.
Definition get_prev : ref → M (option ref) := getattr prev.
Definition get_next : ref → M (option ref) := getattr next.
Definition set_size (r : ref) (z : Z) : M unit := setattr (with_size z) r.
Definition set_free (r : ref) (f : bool) : M unit := setattr (with_free f) r.
Definition set_prev (r : ref) (p : option ref) : M unit := setattr (with_prev p) r.
Definition set_next (r : ref) (n : option ref) : M unit := setattr (with_next n) r.

(** [Block(start, size)]: a new object, free, with both links [None]. *)
Definition new_Block (s z : Z) : M ref :=
  fun h => Ret (length h) (h ++ [mkBlock s z true None None]).

(** ** class MemoryAllocator *)

(** The two attributes of the allocator object; neither is assigned again
    after [__init__]. *)
Record MemoryAllocator := mkAllocator {
  total_memory : Z;
  head : ref
}.

(** [MemoryAllocator.__init__] *)
Definition init (total : Z) : M MemoryAllocator :=
  r ← new_Block 0 total;
  ret (mkAllocator total r).

(** [MemoryAllocator._allocate_block] *)
Definition _allocate_block (block : ref) (sz : Z) : M ref :=
  z ← get_size block;
  if (z =? sz)%Z then
    set_free block false;;
    ret block
  else
    s ← get_start block;
    z' ← get_size block;
    new_block ← new_Block (s + sz) (z' - sz);
    nx ← get_next block;
    set_next new_block nx;;
    set_prev new_block (Some block);;
    nx' ← get_next block;
    (match nx' with
     | Some _ => n ← get_next block; n' ← deref n; set_prev n' (Some new_block)
     | None => ret tt
     end);;
    set_next block (Some new_block);;
    set_size block sz;;
    set_free block false;;
    ret block.

(** The [while current:] loop of [MemoryAllocator.first_fit]; [fuel] bounds the
    number of times the loop test is evaluated. *)
Fixpoint first_fit_loop (fuel : nat) (current : option ref) (sz : Z)
  : M (option ref) :=
  match fuel with
  | O => fun _ => Diverge
  | S fuel' =>
    match current with
    | None => ret None
    | Some c =>
      f ← get_free c;
      fits ← (if f then z ← get_size c; ret (sz <=? z)%Z else ret false);
      if fits then
        r ← _allocate_block c sz;
        ret (Some r)
      else
        nx ← get_next c;
        first_fit_loop fuel' nx sz
    end
  end.

(** [MemoryAllocator.first_fit] *)
Definition first_fit (a : MemoryAllocator) (fuel : nat) (sz : Z)
  : M (option ref) :=
  first_fit_loop fuel (Some (head a)) sz.

(** Lines 41-45 of [free_block]: the statement
    [if block.next and block.next.free: ...], which absorbs a free successor. *)
Definition absorb_next (block : ref) : M unit :=
  nx ← get_next block;
  c ← (match nx with
       | Some _ => n ← get_next block; n' ← deref n; get_free n'
       | None => ret false
       end);
  if c then
    z ← get_size block;
    n ← get_next block; n' ← deref n; zn ← get_size n';
    set_size block (z + zn);;
    n ← get_next block; n' ← deref n; nn ← get_next n';
    set_next block nn;;
    nx' ← get_next block;
    match nx' with
    | Some _ => n ← get_next block; n' ← deref n; set_prev n' (Some block)
    | None => ret tt
    end
  else ret tt.

(** Lines 46-50 of [free_block]: the statement
    [if block.prev and block.prev.free: ...], which lets a free predecessor
    absorb the block. *)
Definition absorb_into_prev (block : ref) : M unit :=
  pv ← get_prev block;
  c ← (match pv with
       | Some _ => p ← get_prev block; p' ← deref p; get_free p'
       | None => ret false
       end);
  if c then
    p ← get_prev block; p' ← deref p; zp ← get_size p';
    z ← get_size block;
    set_size p' (zp + z);;
    nx ← get_next block;
    p ← get_prev block; p' ← deref p;
    set_next p' nx;;
    nx' ← get_next block;
    match nx' with
    | Some _ =>
      p ← get_prev block;
      n ← get_next block; n' ← deref n;
      set_prev n' p
    | None => ret tt
    end
  else ret tt.

(** [MemoryAllocator.free_block]: mark the block free, then the two
    coalescing statements in the order of the source. *)
Definition free_block (block : ref) : M unit :=
  set_free block true;;
  absorb_next block;;
  absorb_into_prev block.

(** One line of [print_memory]: the block's start, its size and whether it is
    free.  (The printed text is [[start-(start+size-1)] Size:size Free|Used].) *)
Definition line : Type := Z * Z * bool.

(** The [while current:] loop of [MemoryAllocator.print_memory], returning the
    lines instead of printing them. *)
Fixpoint print_memory_loop (fuel : nat) (current : option ref)
  : M (list line) :=
  match fuel with
  | O => fun _ => Diverge
  | S fuel' =>
    match current with
    | None => ret []
    | Some c =>
      f ← get_free c;
      s ← get_start c;
      z ← get_size c;
      nx ← get_next c;
      rest ← print_memory_loop fuel' nx;
      ret ((s, z, f) :: rest)
    end
  end.

(** [MemoryAllocator.print_memory] *)
Definition print_memory (a : MemoryAllocator) (fuel : nat) : M (list line) :=
  print_memory_loop fuel (Some (head a)).


(** [allocated.remove(block)] of the driver: drop the first occurrence. *)
Fixpoint list_remove_first (r : ref) (l : list ref) : list ref :=
  match l with
  | [] => []
  | x :: l' => if decide (x = r) then l' else x :: list_remove_first r l'
  end.

(** ** The driver of the simulation *)

(** One call of the driver.  [outstanding] is the driver's list [allocated]:
    the handles returned by a successful [first_fit] and not released since. *)
Inductive reach (a : MemoryAllocator) : heap → list ref → Prop :=
| reach_init h0 h :
    (0 < total_memory a)%Z →
    init (total_memory a) h0 = Ret a h →
    reach a h []
| reach_alloc h outstanding fuel sz r h' :
    reach a h outstanding →
    (0 < sz)%Z →
    first_fit a fuel sz h = Ret (Some r) h' →
    reach a h' (outstanding ++ [r])
| reach_alloc_failed h outstanding fuel sz h' :
    reach a h outstanding →
    (0 < sz)%Z →
    first_fit a fuel sz h = Ret None h' →
    reach a h' outstanding
| reach_free h outstanding r h' :
    reach a h outstanding →
    r ∈ outstanding →
    free_block r h = Ret tt h' →
    reach a h' (list_remove_first r outstanding).

(** ** The block sequence and its invariants *)

Definition head_or (l : list ref) (d : option ref) : option ref :=
  match l with
  | [] => d
  | r :: _ => Some r
  end.

Definition last_or (l : list ref) (d : option ref) : option ref :=
  match last l with
  | Some r => Some r
  | None => d
  end.

(** [dlseg h p l n]: in store [h] the objects [l] are linked in this order
    through [next] and back through [prev]; [p] is the [prev] of the first
    and [n] the [next] of the last. *)
Fixpoint dlseg (h : heap) (p : option ref) (l : list ref) (n : option ref)
  : Prop :=
  match l with
  | [] => True
  | r :: l' =>
    ∃ b, h !! r = Some b ∧ prev b = p ∧ next b = head_or l' n
         ∧ dlseg h (Some r) l' n
  end.

(** The blocks of allocator [a], in the order of traversal from [a.head]. *)
Definition chain (a : MemoryAllocator) (h : heap) (l : list ref) : Prop :=
  head_or l None = Some (head a) ∧ NoDup l ∧ dlseg h None l None.

Definition line_of (b : Block) : line := (start b, size b, free b).

(** What [print_memory] shows of the objects [l]. *)
Definition view (h : heap) (l : list ref) : list line :=
  map (fun r => from_option line_of (0%Z, 0%Z, false) (h !! r)) l.

(** Invariant 1: blocks are ordered by start, without gaps. *)
Definition contiguous (v : list line) : Prop :=
  (∀ i s z f s' z' f',
      v !! i = Some (s, z, f) → v !! S i = Some (s', z', f') →
      s' = (s + z)%Z)
  ∧ (∀ i j s z f s' z' f',
      i < j → v !! i = Some (s, z, f) → v !! j = Some (s', z', f') →
      (s < s')%Z).

(** Invariant 2: the first block starts at 0, the last ends at [total]. *)
Definition bounded (total : Z) (v : list line) : Prop :=
  (∃ z f, v !! 0 = Some (0%Z, z, f))
  ∧ (∃ s z f, last v = Some (s, z, f) ∧ (s + z)%Z = total).

(** Invariant 3: no two adjacent blocks are both free. *)
Definition no_adjacent_free (v : list line) : Prop :=
  ∀ i s z s' z',
    v !! i = Some (s, z, true) → v !! S i = Some (s', z', true) → False.

(** Invariant 4: every block has a positive size. *)
Definition positive_sizes (v : list line) : Prop :=
  ∀ s z f, (s, z, f) ∈ v → (0 < z)%Z.

(** The same four invariants in the shape the proofs work with: [tiles s v e]
    says that [v] partitions [s, e) into blocks of positive size, and
    [unmerged pf v] that no free block of [v] follows a free block, where
    [pf] tells whether the block before [v] is free. *)
Fixpoint tiles (s : Z) (v : list line) (e : Z) : Prop :=
  match v with
  | [] => s = e
  | (s', z, _) :: v' => s' = s ∧ (0 < z)%Z ∧ tiles (s + z) v' e
  end.

Fixpoint unmerged (pf : bool) (v : list line) : Prop :=
  match v with
  | [] => True
  | (_, _, f) :: v' => ¬ (pf = true ∧ f = true) ∧ unmerged f v'
  end.

Definition last_free (pf : bool) (v : list line) : bool :=
  match last v with
  | Some (_, _, f) => f
  | None => pf
  end.

Definition sum_sizes (v : list line) : Z :=
  foldr (fun '(_, z, _) acc => (z + acc)%Z) 0%Z v.

(** The test of the scan in [first_fit]:
    [current.free and current.size >= size]. *)
Definition fits (sz : Z) (b : Block) : bool :=
  free b && (sz <=? size b)%Z.

(** The driver's list holds used blocks of the sequence, each once. *)
Definition is_used (h : heap) (r : ref) : Prop :=
  ∃ b, h !! r = Some b ∧ free b = false.

Definition outstanding_ok (h : heap) (l outstanding : list ref) : Prop :=
  NoDup outstanding ∧ ∀ r, r ∈ outstanding → r ∈ l ∧ is_used h r.

(** The invariant of the simulation: [l] is the block sequence of [a], it
    partitions [0, total_memory) without two adjacent free blocks, and the
    driver only holds used blocks of the sequence. *)
Definition inv (a : MemoryAllocator) (h : heap) (l outstanding : list ref)
  : Prop :=
  chain a h l
  ∧ tiles 0 (view h l) (total_memory a)
  ∧ unmerged false (view h l)
  ∧ outstanding_ok h l outstanding.

(** ** The scenarios of the specification *)

Definition heap_of {A} (x : result A) : heap :=
  match x with
  | Ret _ h => h
  | _ => []
  end.

(** [MemoryAllocator(100)] on an empty store, then [first_fit(40)],
    [first_fit(30)], [free_block] of the first handle, [first_fit(35)]. *)
Definition arena100 : MemoryAllocator := mkAllocator 100 0.
Definition round0 : heap := Eval vm_compute in heap_of (init 100 []).
Definition round1 : heap :=
  Eval vm_compute in heap_of (first_fit arena100 10 40 round0).
Definition round2 : heap :=
  Eval vm_compute in heap_of (first_fit arena100 10 30 round1).
Definition round3 : heap := Eval vm_compute in heap_of (free_block 0 round2).
Definition round4 : heap :=
  Eval vm_compute in heap_of (first_fit arena100 10 35 round3).

(** After [round3], the second handle is released as well: its block is
    absorbed by the free block before it. *)
Definition merged : heap := Eval vm_compute in heap_of (free_block 1 round3).

(** [MemoryAllocator(85)], then [first_fit] of 10, 20 and 5 and [free_block]
    of the second handle: blocks [0,10) used, [10,30) free, [30,35) used,
    [35,85) free. *)
Definition arena85 : MemoryAllocator := mkAllocator 85 0.
Definition fragmented : heap :=
  Eval vm_compute in
    heap_of ((a ← init 85;
              first_fit a 10 10;;
              h ← first_fit a 10 20;
              first_fit a 10 5;;
              r ← deref h;
              free_block r) []).

(** ** Capacity held by the driver and capacity left *)

(** The sizes of the blocks behind the handles [outstanding], added up. *)
Definition held (h : heap) (outstanding : list ref) : Z :=
  foldr (fun x acc => (from_option size 0%Z (h !! x) + acc)%Z) 0%Z outstanding.

(** The sizes of the free blocks that [print_memory] shows, added up. *)
Definition free_capacity (v : list line) : Z :=
  foldr (fun '(_, z, f) acc => if f : bool then (z + acc)%Z else acc) 0%Z v.

(** Whether [x] is a used block of the store. *)
Definition used_b (h : heap) (x : ref) : bool :=
  match h !! x with
  | Some b => negb (free b)
  | None => false
  end.

(** ** The simulation loop (lines 61-88 of the source) *)

(** The module-level variables of the loop: [allocated], [alloc_attempts]
    and [free_count]. *)
Record sim := mkSim {
  allocated : list ref;
  alloc_attempts : nat;
  free_count : nat
}.

(** The random draws of one iteration: [random.choice(['alloc', 'free'])]
    came out as ['alloc'] when [draw_alloc] holds, and [draw] is the number
    from which the one further draw of the iteration is taken. *)
Record draws := mkDraws {
  draw_alloc : bool;
  draw : nat
}.

(** [random.randint(lo, hi)]: some integer of [lo, hi], both included. *)
Definition randint (lo hi : Z) (k : nat) : Z :=
  (lo + Z.of_nat k mod (hi - lo + 1))%Z.

(** [random.choice(seq)]: the element at some index below [len(seq)]; it
    raises on an empty sequence. *)
Definition choice (l : list ref) (k : nat) : M ref :=
  deref (l !! (k mod length l)).

(** The truth value of a list. *)
Definition truthy (l : list ref) : bool :=
  match l with
  | [] => false
  | _ :: _ => true
  end.

(** The body of the [while] loop.  The calls of [print] are left out, the
    calls of [print_memory] are made and their lines dropped. *)
Definition iteration (a : MemoryAllocator) (fuel : nat) (d : draws) (s : sim)
  : M sim :=
  s1 ← (if draw_alloc d && (alloc_attempts s <? 50) then
          block ← first_fit a fuel (randint 5 50 (draw d));
          print_memory a fuel;;
          ret (mkSim (match block with
                      | Some r => allocated s ++ [r]
                      | None => allocated s
                      end)
                     (S (alloc_attempts s)) (free_count s))
        else ret s);
  if negb (draw_alloc d) && (free_count s1 <? 30) && truthy (allocated s1) then
    block ← choice (allocated s1) (draw d);
    free_block block;;
    print_memory a fuel;;
    ret (mkSim (list_remove_first block (allocated s1))
               (alloc_attempts s1) (S (free_count s1)))
  else ret s1.

(** [while alloc_attempts < 50 or free_count < 30] *)
Definition looping (s : sim) : bool :=
  (alloc_attempts s <? 50) || (free_count s <? 30).

(** The loop on the draws [ds], one element for each iteration: it ends when
    its condition fails, or earlier when the draws are used up. *)
Fixpoint simulation_loop (a : MemoryAllocator) (fuel : nat) (ds : list draws)
    (s : sim) : M sim :=
  match ds with
  | [] => ret s
  | d :: ds' =>
    if looping s then
      s' ← iteration a fuel d s;
      simulation_loop a fuel ds' s'
    else ret s
  end.

(** Lines 62-86: the allocator of 1000 units, the three variables and the
    loop. *)
Definition simulation (fuel : nat) (ds : list draws)
  : M (MemoryAllocator * sim) :=
  a ← init 1000;
  s ← simulation_loop a fuel ds (mkSim [] 0 0);
  ret (a, s).

(** What holds between two iterations of the loop: the store and the list
    [allocated] were reached by proper use, the sequence [l] has at most one
    block more than there were allocation attempts, and the counters are
    within their limits. *)
Definition sim_ok (a : MemoryAllocator) (h : heap) (s : sim) : Prop :=
  ∃ l, inv a h l (allocated s)
       ∧ reach a h (allocated s)
       ∧ length l ≤ S (alloc_attempts s)
       ∧ alloc_attempts s ≤ 50
       ∧ free_count s ≤ 30
       ∧ free_count s + length (allocated s) ≤ alloc_attempts s.

(** ** Blocks of other allocators *)





(** ** Running the program step by step *)

Section run.
Context {A B : Type}.

Lemma run_ret (a : A) (k : A → M B) h : (x ← ret a; k x) h = k a h.
Proof. reflexivity. Qed.

Lemma run_getattr (f : Block → A) r b (k : A → M B) (h : heap) :
  h !! r = Some b → (x ← getattr f r; k x) h = k (f b) h.
Proof. intros E. unfold bind, getattr. now rewrite E. Qed.

Lemma run_setattr upd r b (k : unit → M B) (h : heap) :
  h !! r = Some b → (x ← setattr upd r; k x) h = k tt (<[r := upd b]> h).
Proof. intros E. unfold bind, setattr. now rewrite E. Qed.

Lemma run_deref r (k : ref → M B) h : (x ← deref (Some r); k x) h = k r h.
Proof. reflexivity. Qed.

Lemma run_new s z (k : ref → M B) (h : heap) :
  (x ← new_Block s z; k x) h
  = k (length h) (h ++ [mkBlock s z true None None]).
Proof. reflexivity. Qed.

Lemma run_assoc {C} (m : M C) (f : C → M A) (k : A → M B) h :
  (x ← (y ← m; f y); k x) h = (y ← m; x ← f y; k x) h.
Proof. unfold bind. now destruct (m h). Qed.

Lemma run_bind (m : M A) (k : A → M B) h a h' :
  m h = Ret a h' → (x ← m; k x) h = k a h'.
Proof. intros E. unfold bind. now rewrite E. Qed.
End run.

Lemma end_getattr {A} (f : Block → A) r b (h : heap) :
  h !! r = Some b → getattr f r h = Ret (f b) h.
Proof. intros E. unfold getattr. now rewrite E. Qed.

Lemma end_setattr upd r b (h : heap) :
  h !! r = Some b → setattr upd r h = Ret tt (<[r := upd b]> h).
Proof. intros E. unfold setattr. now rewrite E. Qed.

(** Lookups in a store built from updates of a known store. *)
Ltac heap_len :=
  rewrite ?length_insert, ?length_app; simpl;
  repeat match goal with
         | H : _ !! _ = Some _ |- _ => apply lookup_lt_Some in H
         end;
  lia.

Ltac heap_lookup :=
  repeat first
    [ rewrite list_lookup_insert_eq by heap_len
    | rewrite list_lookup_insert_ne by first [ assumption | congruence | heap_len ]
    | rewrite (list_lookup_middle _ [] _ _ eq_refl)
    | rewrite lookup_app_l by heap_len ];
  first [ eassumption | reflexivity ].

Ltac run_step :=
  first
    [ rewrite run_ret
    | rewrite run_deref
    | rewrite run_new
    | rewrite run_assoc
    | erewrite run_getattr by heap_lookup
    | erewrite run_setattr by heap_lookup
    | erewrite end_getattr by heap_lookup
    | erewrite end_setattr by heap_lookup ];
  cbn [start size free prev next with_size with_free with_prev with_next].

Ltac run :=
  unfold get_start, get_size, get_free, get_prev, get_next,
         set_size, set_free, set_prev, set_next;
  repeat run_step.


(** ** Linked segments *)

Lemma head_or_app l1 l2 d : head_or (l1 ++ l2) d = head_or l1 (head_or l2 d).
Proof. now destruct l1. Qed.

Lemma last_or_cons r l d : last_or (r :: l) d = last_or l (Some r).
Proof.
  unfold last_or. destruct l as [|x l]; [reflexivity|].
  change (last (r :: x :: l)) with (last (x :: l)).
  destruct (last (x :: l)) eqn:E; [reflexivity|].
  now apply last_None in E.
Qed.

Lemma dlseg_app h p l1 l2 n :
  dlseg h p (l1 ++ l2) n
  ↔ dlseg h p l1 (head_or l2 n) ∧ dlseg h (last_or l1 p) l2 n.
Proof.
  revert p. induction l1 as [|r l1 IH]; intros p; simpl.
  - unfold last_or; simpl. tauto.
  - rewrite last_or_cons, head_or_app. split.
    + intros (b & E & Hp & Hn & Hs). apply IH in Hs as [Hs1 Hs2].
      split; [exists b|]; auto.
    + intros [(b & E & Hp & Hn & Hs1) Hs2]. exists b.
      repeat split; auto. apply IH. auto.
Qed.

Lemma dlseg_lookup h p l n r :
  dlseg h p l n → r ∈ l → is_Some (h !! r).
Proof.
  revert p. induction l as [|x l IH]; intros p Hs Hin.
  - now apply elem_of_nil in Hin.
  - destruct Hs as (b & E & _ & _ & Hs).
    apply elem_of_cons in Hin as [->|Hin]; eauto.
Qed.

Lemma dlseg_lt h p l n r : dlseg h p l n → r ∈ l → r < length h.
Proof. intros Hs Hin. eapply lookup_lt_is_Some, dlseg_lookup; eauto. Qed.

(** A segment only depends on the links of its own objects. *)
Lemma dlseg_ext (h h' : heap) p l n :
  (∀ r, r ∈ l → ∃ b b', h !! r = Some b ∧ h' !! r = Some b'
                        ∧ prev b' = prev b ∧ next b' = next b) →
  dlseg h p l n → dlseg h' p l n.
Proof.
  revert p. induction l as [|x l IH]; intros p Hsame Hs; [exact I|].
  destruct Hs as (b & E & Hp & Hn & Hs).
  destruct (Hsame x) as (b0 & b' & E0 & E' & Hp' & Hn'); [left|].
  rewrite E in E0. injection E0 as <-.
  exists b'. repeat split; try congruence.
  apply IH; auto. intros r Hr. apply Hsame. now right.
Qed.

Lemma dlseg_same (h h' : heap) p l n :
  (∀ r, r ∈ l → h' !! r = h !! r) → dlseg h p l n → dlseg h' p l n.
Proof.
  intros Hsame Hs. eapply dlseg_ext; [|exact Hs].
  intros r Hr. destruct (dlseg_lookup _ _ _ _ _ Hs Hr) as [b E].
  exists b, b. rewrite Hsame by assumption. auto.
Qed.

Lemma view_app h l1 l2 : view h (l1 ++ l2) = view h l1 ++ view h l2.
Proof. apply map_app. Qed.

Lemma view_same (h h' : heap) l :
  (∀ r, r ∈ l → line_of <$> h' !! r = line_of <$> h !! r) →
  view h' l = view h l.
Proof.
  intros Hsame. unfold view. apply map_ext_in. intros r Hr.
  apply list_elem_of_In in Hr. specialize (Hsame r Hr).
  destruct (h' !! r), (h !! r); simpl in *; congruence.
Qed.

Lemma view_length h l : length (view h l) = length l.
Proof. apply length_map. Qed.

(** [print_memory] terminates on a linked sequence and shows its view. *)
Lemma print_memory_loop_view h p l fuel :
  dlseg h p l None → length l < fuel →
  print_memory_loop fuel (head_or l None) h = Ret (view h l) h.
Proof.
  revert p fuel. induction l as [|r l IH]; intros p fuel Hs Hf.
  - destruct fuel; [lia|]. reflexivity.
  - destruct fuel as [|fuel]; [simpl in Hf; lia|].
    destruct Hs as (b & E & Hp & Hn & Hs).
    cbn [print_memory_loop head_or]. run.
    rewrite Hn. erewrite run_bind by (apply (IH (Some r)); [exact Hs|simpl in Hf; lia]).
    cbn [view map]. now rewrite E.
Qed.

Lemma print_memory_view a h l fuel :
  chain a h l → length l < fuel → print_memory a fuel h = Ret (view h l) h.
Proof.
  intros (Hh & _ & Hs) Hf. unfold print_memory. rewrite <- Hh.
  eapply print_memory_loop_view; eauto.
Qed.

(** ** The invariants on what [print_memory] shows *)

Lemma tiles_app s v1 v2 e :
  tiles s (v1 ++ v2) e ↔ ∃ m, tiles s v1 m ∧ tiles m v2 e.
Proof.
  revert s. induction v1 as [|[[s' z] f] v1 IH]; intros s; simpl.
  - split; [intros H; eauto|intros (m & -> & H); auto].
  - rewrite IH. split.
    + intros (-> & Hz & m & H1 & H2). eauto.
    + intros (m & (-> & Hz & H1) & H2). eauto.
Qed.

Lemma tiles_sum s v e : tiles s v e → e = (s + sum_sizes v)%Z.
Proof.
  revert s. induction v as [|[[s' z] f] v IH]; intros s; simpl.
  - lia.
  - intros (-> & _ & H). apply IH in H. lia.
Qed.

Lemma tiles_lookup_ge s v e j s' z' f' :
  tiles s v e → v !! j = Some (s', z', f') → (s <= s')%Z.
Proof.
  revert s j. induction v as [|[[s0 z0] f0] v IH]; intros s j Ht E.
  - discriminate.
  - destruct Ht as (-> & Hz & Ht). destruct j as [|j]; simpl in E.
    + injection E as -> _ _. lia.
    + specialize (IH _ _ Ht E). lia.
Qed.

Lemma tiles_contiguous s v e : tiles s v e → contiguous v.
Proof.
  intros Ht. split.
  - revert s Ht. induction v as [|[[s0 z0] f0] v IH]; intros s Ht i.
    + intros; discriminate.
    + destruct Ht as (-> & Hz & Ht). destruct i as [|i]; simpl.
      * intros s1 z1 f1 s' z' f' E E'. injection E as <- <- <-.
        destruct v as [|[[s2 z2] f2] v]; [discriminate|].
        destruct Ht as (-> & _). now injection E' as <- _ _.
      * eapply IH, Ht.
  - revert s Ht. induction v as [|[[s0 z0] f0] v IH]; intros s Ht i j.
    + intros; discriminate.
    + destruct Ht as (-> & Hz & Ht). intros s1 z1 f1 s' z' f' Hij E E'.
      destruct j as [|j]; [lia|]. destruct i as [|i]; simpl in *.
      * injection E as <- <- <-.
        pose proof (tiles_lookup_ge _ _ _ _ _ _ _ Ht E'). lia.
      * eapply (IH _ Ht i j); eauto. lia.
Qed.

Lemma tiles_positive s v e : tiles s v e → positive_sizes v.
Proof.
  revert s. induction v as [|[[s0 z0] f0] v IH]; intros s Ht s' z' f' Hin.
  - now apply elem_of_nil in Hin.
  - destruct Ht as (-> & Hz & Ht).
    apply elem_of_cons in Hin as [E|Hin].
    + now injection E as -> -> ->.
    + eapply IH; eauto.
Qed.

Lemma tiles_last s v e :
  tiles s v e → v ≠ [] → ∃ s' z f, last v = Some (s', z, f) ∧ (s' + z)%Z = e.
Proof.
  revert s. induction v as [|[[s0 z0] f0] v IH]; intros s Ht Hne; [done|].
  destruct Ht as (-> & Hz & Ht). destruct v as [|ln v].
  - simpl in Ht. exists s, z0, f0. auto.
  - destruct (IH _ Ht) as (s' & z & f & E & He); [done|].
    exists s', z, f. auto.
Qed.

Lemma tiles_bounded v total :
  v ≠ [] → tiles 0 v total → bounded total v.
Proof.
  intros Hne Ht. destruct v as [|[[s0 z0] f0] v]; [done|].
  split.
  - destruct Ht as (-> & _). simpl. eauto.
  - now apply (tiles_last 0).
Qed.

Lemma last_free_snoc pf v s z f : last_free pf (v ++ [(s, z, f)]) = f.
Proof. unfold last_free. now rewrite last_snoc. Qed.

Lemma last_free_cons pf ln v :
  last_free pf (ln :: v) = last_free (ln.2) v.
Proof.
  unfold last_free. destruct v as [|x v].
  - now destruct ln as [[? ?] ?].
  - change (last (ln :: x :: v)) with (last (x :: v)).
    destruct (last (x :: v)) eqn:E; [reflexivity|].
    now apply last_None in E.
Qed.

Lemma unmerged_app pf v1 v2 :
  unmerged pf (v1 ++ v2) ↔ unmerged pf v1 ∧ unmerged (last_free pf v1) v2.
Proof.
  revert pf. induction v1 as [|[[s z] f] v1 IH]; intros pf; simpl.
  - unfold last_free; simpl. tauto.
  - rewrite last_free_cons, IH. simpl. tauto.
Qed.

Lemma unmerged_weaken pf v : unmerged pf v → unmerged false v.
Proof.
  destruct v as [|[[s z] f] v]; simpl; [auto|].
  intros [_ H]. split; [intros [? _]; discriminate|exact H].
Qed.

Lemma unmerged_no_adjacent_free pf v : unmerged pf v → no_adjacent_free v.
Proof.
  revert pf. induction v as [|[[s0 z0] f0] v IH]; intros pf Hu i.
  - intros; discriminate.
  - destruct Hu as [_ Hu]. destruct i as [|i]; simpl.
    + intros s z s' z' E E'. injection E as _ _ ->.
      destruct v as [|[[s2 z2] f2] v]; [discriminate|].
      injection E' as _ _ ->. destruct Hu as [Hu _]. now apply Hu.
    + eapply IH, Hu.
Qed.

(** ** [_allocate_block] on the store *)

Lemma allocate_block_exact r b (h : heap) :
  h !! r = Some b →
  _allocate_block r (size b) h = Ret r (<[r := with_free false b]> h).
Proof.
  intros E. unfold _allocate_block. run.
  rewrite Z.eqb_refl. run. reflexivity.
Qed.

Lemma allocate_block_split r b sz (h : heap) :
  h !! r = Some b → size b ≠ sz →
  (∀ n, next b = Some n → n ≠ r ∧ is_Some (h !! n)) →
  ∃ h', _allocate_block r sz h = Ret r h'
    ∧ length h' = S (length h)
    ∧ h' !! r = Some (mkBlock (start b) sz false (prev b) (Some (length h)))
    ∧ h' !! length h
      = Some (mkBlock (start b + sz) (size b - sz) true (Some r) (next b))
    ∧ (∀ n bn, next b = Some n → h !! n = Some bn →
               h' !! n = Some (with_prev (Some (length h)) bn))
    ∧ (∀ x, x < length h → x ≠ r → next b ≠ Some x → h' !! x = h !! x).
Proof.
  intros E Hne Hnext. unfold _allocate_block. run.
  destruct (Z.eqb_spec (size b) sz) as [|_]; [done|].
  pose proof (lookup_lt_Some _ _ _ E) as Hr.
  destruct b as [s z f p [n|]]; cbn [start size free prev next] in *.
  - destruct (Hnext n eq_refl) as [Hn [bn En]].
    pose proof (lookup_lt_Some _ _ _ En) as Hn'.
    run. eexists. split; [reflexivity|].
    split; [heap_len|]. repeat split.
    + heap_lookup.
    + heap_lookup.
    + intros n0 bn0 [= <-] En0. rewrite En in En0. injection En0 as <-.
      heap_lookup.
    + intros x Hx Hxr Hxn. assert (n ≠ x) by (intros ->; now apply Hxn). heap_lookup.
  - run. eexists. split; [reflexivity|].
    split; [heap_len|]. repeat split.
    + heap_lookup.
    + heap_lookup.
    + intros; discriminate.
    + intros x Hx Hxr _. heap_lookup.
Qed.

(** ** [_allocate_block] on the block sequence *)

Lemma NoDup_mid (l1 : list ref) r l2 :
  NoDup (l1 ++ r :: l2) →
  (r ∉ l1) ∧ (r ∉ l2) ∧ NoDup l1 ∧ NoDup l2 ∧ (∀ x, x ∈ l1 → x ∉ l2).
Proof.
  intros H. apply NoDup_app in H as (H1 & H12 & H2).
  apply NoDup_cons in H2 as [Hr H2].
  repeat split; auto.
  - intros Hin. apply (H12 r Hin). now left.
  - intros x Hx Hx2. apply (H12 x Hx). now right.
Qed.

Lemma chain_mid a h l1 r l2 :
  chain a h (l1 ++ r :: l2) →
  ∃ b, h !! r = Some b ∧ prev b = last_or l1 None
       ∧ next b = head_or l2 None
       ∧ dlseg h None l1 (Some r) ∧ dlseg h (Some r) l2 None.
Proof.
  intros (_ & _ & Hs). apply dlseg_app in Hs as [Hs1 Hs2].
  destruct Hs2 as (b & E & Hp & Hn & Hs2). exists b. auto.
Qed.

Lemma chain_lt a h l r : chain a h l → r ∈ l → r < length h.
Proof. intros (_ & _ & Hs). eapply dlseg_lt, Hs. Qed.

Lemma chain_build a h l1 r l2 b :
  head_or (l1 ++ r :: l2) None = Some (head a) →
  NoDup (l1 ++ r :: l2) →
  h !! r = Some b → prev b = last_or l1 None → next b = head_or l2 None →
  dlseg h None l1 (Some r) → dlseg h (Some r) l2 None →
  chain a h (l1 ++ r :: l2).
Proof.
  intros Hh Hnd E Hp Hn Hs1 Hs2. split; [exact Hh|]. split; [exact Hnd|].
  apply dlseg_app. split; [exact Hs1|]. exists b. auto.
Qed.

Lemma view_mid h l1 r l2 b :
  h !! r = Some b →
  view h (l1 ++ r :: l2) = view h l1 ++ line_of b :: view h l2.
Proof. intros E. rewrite view_app. simpl. now rewrite E. Qed.

Lemma allocate_exact_chain a h l1 r l2 b :
  chain a h (l1 ++ r :: l2) → h !! r = Some b →
  let h' := <[r := with_free false b]> h in
  chain a h' (l1 ++ r :: l2)
  ∧ view h' (l1 ++ r :: l2)
    = view h l1 ++ (start b, size b, false) :: view h l2.
Proof.
  intros Hc E h'. pose proof Hc as (Hh & Hnd & Hs).
  pose proof (lookup_lt_Some _ _ _ E) as Hr.
  destruct (NoDup_mid _ _ _ Hnd) as (Hr1 & Hr2 & _).
  assert (Er : h' !! r = Some (with_free false b))
    by (apply list_lookup_insert_eq, Hr).
  assert (Hsame : ∀ x, x ≠ r → h' !! x = h !! x)
    by (intros x Hx; apply list_lookup_insert_ne; congruence).
  split.
  - split; [exact Hh|]. split; [exact Hnd|].
    eapply dlseg_ext; [|exact Hs]. intros x Hx.
    destruct (decide (x = r)) as [->|Hxr].
    + exists b, (with_free false b). auto.
    + destruct (dlseg_lookup _ _ _ _ _ Hs Hx) as [bx Ex].
      exists bx, bx. rewrite Hsame by assumption. auto.
  - rewrite (view_mid _ _ _ _ _ Er). f_equal; [|f_equal].
    + apply view_same. intros x Hx. rewrite Hsame; [done|]. now intros ->.
    + apply view_same. intros x Hx. rewrite Hsame; [done|]. now intros ->.
Qed.

Lemma allocate_split_chain a h l1 r l2 b sz :
  chain a h (l1 ++ r :: l2) → h !! r = Some b → size b ≠ sz →
  ∃ h', _allocate_block r sz h = Ret r h'
    ∧ chain a h' (l1 ++ r :: length h :: l2)
    ∧ view h' (l1 ++ r :: length h :: l2)
      = view h l1 ++ (start b, sz, false)
          :: ((start b + sz)%Z, (size b - sz)%Z, true) :: view h l2
    ∧ h' !! r = Some (mkBlock (start b) sz false (prev b) (Some (length h)))
    ∧ h' !! length h
      = Some (mkBlock (start b + sz) (size b - sz) true (Some r) (next b))
    ∧ (∀ x, x < length h → x ≠ r →
            line_of <$> h' !! x = line_of <$> h !! x).
Proof.
  intros Hc E Hne. pose proof Hc as (Hh & Hnd & Hs).
  destruct (chain_mid _ _ _ _ _ Hc) as (b0 & E0 & Hp & Hn & Hs1 & Hs2).
  rewrite E in E0. injection E0 as <-.
  destruct (NoDup_mid _ _ _ Hnd) as (Hr1 & Hr2 & Hnd1 & Hnd2 & H12).
  assert (Hlt : ∀ x, x ∈ l1 ++ r :: l2 → x < length h)
    by (intros x; apply (chain_lt _ _ _ _ Hc)).
  pose proof (lookup_lt_Some _ _ _ E) as Hrlt.
  destruct (allocate_block_split r b sz h E Hne)
    as (h' & Hrun & Hlen & Er & Enb & Hnext & Hsame).
  { intros n En. rewrite Hn in En. destruct l2 as [|n' l2]; [discriminate|].
    injection En as ->. split.
    - intros ->. apply Hr2. now left.
    - eapply dlseg_lookup; [exact Hs2|now left]. }
  assert (Hline : ∀ x, x < length h → x ≠ r →
                       line_of <$> h' !! x = line_of <$> h !! x).
  { intros x Hx Hxr. destruct (decide (next b = Some x)) as [En|En].
    - destruct (lookup_lt_is_Some_2 h x Hx) as [bx Ex].
      rewrite (Hnext _ _ En Ex), Ex. reflexivity.
    - now rewrite Hsame. }
  exists h'. split; [exact Hrun|]. split; [|split; [|auto]].
  - replace (l1 ++ r :: length h :: l2) with (l1 ++ r :: [length h] ++ l2)
      by reflexivity.
    apply chain_build with
      (b := mkBlock (start b) sz false (prev b) (Some (length h))); auto.
    + rewrite head_or_app in *. exact Hh.
    + apply NoDup_app. split; [exact Hnd1|]. split.
      * intros x Hx Hx'. apply elem_of_cons in Hx' as [->|Hx']; [done|].
        apply elem_of_cons in Hx' as [->|Hx'].
        -- assert (length h < length h); [|lia].
           apply Hlt, elem_of_app. now left.
        -- now apply (H12 x).
      * apply NoDup_cons. split.
        -- intros Hx. apply elem_of_cons in Hx as [->|Hx]; [lia|done].
        -- apply NoDup_cons. split; [|exact Hnd2].
           intros Hx. assert (length h < length h); [|lia].
           apply Hlt, elem_of_app. right. now right.
    + eapply dlseg_same; [|exact Hs1]. intros x Hx. apply Hsame.
      * apply Hlt, elem_of_app. now left.
      * now intros ->.
      * rewrite Hn. destruct l2 as [|n l2]; [done|].
        intros [= ->]. apply (H12 x Hx). now left.
    + simpl. exists (mkBlock (start b + sz) (size b - sz) true (Some r) (next b)).
      repeat split; auto.
      destruct l2 as [|n l2]; [exact I|].
      destruct Hs2 as (bn & En & Hpn & Hnn & Hs2). simpl in Hn.
      exists (with_prev (Some (length h)) bn). repeat split; auto.
      eapply dlseg_same; [|exact Hs2]. intros x Hx.
      apply NoDup_cons in Hnd2 as [Hn2 _]. apply Hsame.
      * apply Hlt, elem_of_app. right. now do 2 right.
      * intros ->. apply Hr2. now right.
      * rewrite Hn. intros [= ->]. done.
  - rewrite (view_mid _ _ _ _ _ Er). cbn [view map]. rewrite Enb.
    f_equal; [|f_equal; f_equal].
    + apply view_same. intros x Hx. apply Hline.
      * apply Hlt, elem_of_app. now left.
      * now intros ->.
    + apply view_same. intros x Hx. apply Hline.
      * apply Hlt, elem_of_app. right. now right.
      * now intros ->.
Qed.

(** ** The scan of [first_fit] *)

Lemma first_fit_loop_skip h p l nxt sz fuel :
  dlseg h p l nxt →
  (∀ r b, r ∈ l → h !! r = Some b → fits sz b = false) →
  first_fit_loop (length l + fuel) (head_or l nxt) sz h
  = first_fit_loop fuel nxt sz h.
Proof.
  revert p. induction l as [|r l IH]; intros p Hs Hno; [reflexivity|].
  destruct Hs as (b & E & Hp & Hn & Hs).
  cbn [length head_or Nat.add first_fit_loop].
  assert (Hb : fits sz b = false) by (apply (Hno r); [now left|exact E]).
  unfold fits in Hb. run.
  destruct (free b); simpl in Hb; run; rewrite ?Hb; run.
  all: rewrite Hn; apply (IH (Some r)); [exact Hs|];
       intros x bx Hx; apply Hno; now right.
Qed.

Lemma first_fit_loop_hit h r b sz fuel :
  h !! r = Some b → fits sz b = true →
  first_fit_loop (S fuel) (Some r) sz h
  = (x ← _allocate_block r sz; ret (Some x)) h.
Proof.
  intros E Hb. unfold fits in Hb. apply andb_true_iff in Hb as [Hf Hz].
  cbn [first_fit_loop]. run. rewrite Hf. run. rewrite Hz. reflexivity.
Qed.

Lemma first_fit_none a h l sz fuel :
  chain a h l → length l < fuel →
  (∀ r b, r ∈ l → h !! r = Some b → fits sz b = false) →
  first_fit a fuel sz h = Ret None h.
Proof.
  intros (Hh & _ & Hs) Hf Hno. unfold first_fit. rewrite <- Hh.
  replace fuel with (length l + S (fuel - S (length l))) by lia.
  erewrite first_fit_loop_skip by eassumption. reflexivity.
Qed.

Lemma first_fit_found a h l1 r l2 b sz fuel :
  chain a h (l1 ++ r :: l2) → length l1 < fuel →
  (∀ x bx, x ∈ l1 → h !! x = Some bx → fits sz bx = false) →
  h !! r = Some b → fits sz b = true →
  first_fit a fuel sz h = (x ← _allocate_block r sz; ret (Some x)) h.
Proof.
  intros (Hh & _ & Hs) Hf Hno E Hb. unfold first_fit. rewrite <- Hh.
  apply dlseg_app in Hs as [Hs1 _]. rewrite head_or_app. cbn [head_or] in *.
  replace fuel with (length l1 + S (fuel - S (length l1))) by lia.
  erewrite first_fit_loop_skip by eassumption.
  eapply first_fit_loop_hit; eassumption.
Qed.

(** Where the scan stops: at the first block that fits, if there is one. *)
Lemma first_fit_point (h : heap) sz (l : list ref) :
  (∀ r, r ∈ l → is_Some (h !! r)) →
  (∀ r b, r ∈ l → h !! r = Some b → fits sz b = false)
  ∨ ∃ l1 r l2 b,
      l = l1 ++ r :: l2 ∧ h !! r = Some b ∧ fits sz b = true
      ∧ ∀ x bx, x ∈ l1 → h !! x = Some bx → fits sz bx = false.
Proof.
  induction l as [|r l IH]; intros Hdef.
  - left. intros r b Hin. now apply elem_of_nil in Hin.
  - destruct (Hdef r) as [b E]; [now left|].
    destruct (fits sz b) eqn:Hb.
    + right. exists [], r, l, b. repeat split; auto.
      intros x bx Hin. now apply elem_of_nil in Hin.
    + destruct IH as [Hno|(l1 & x & l2 & bx & -> & Ex & Hx & Hno)].
      * intros x Hx. apply Hdef. now right.
      * left. intros x bx Hin Ex.
        apply elem_of_cons in Hin as [->|Hin]; [congruence|eauto].
      * right. exists (r :: l1), x, l2, bx. repeat split; auto.
        intros y y' Hin Ey.
        apply elem_of_cons in Hin as [->|Hin]; [congruence|eauto].
Qed.

(** ** [free_block] on the block sequence *)

Lemma view_frame (h h' : heap) l1 r l2 b' :
  h' !! r = Some b' →
  (∀ x, x ≠ r → line_of <$> h' !! x = line_of <$> h !! x) →
  r ∉ l1 → r ∉ l2 →
  view h' (l1 ++ r :: l2) = view h l1 ++ line_of b' :: view h l2.
Proof.
  intros E Hframe H1 H2. rewrite (view_mid _ _ _ _ _ E).
  f_equal; [|f_equal]; apply view_same; intros x Hx; apply Hframe;
    now intros ->.
Qed.

Lemma chain_update a h l1 r l2 b b' :
  chain a h (l1 ++ r :: l2) → h !! r = Some b →
  prev b' = prev b → next b' = next b →
  chain a (<[r := b']> h) (l1 ++ r :: l2)
  ∧ view (<[r := b']> h) (l1 ++ r :: l2)
    = view h l1 ++ line_of b' :: view h l2.
Proof.
  intros Hc E Hp Hn. pose proof Hc as (Hh & Hnd & Hs).
  pose proof (lookup_lt_Some _ _ _ E) as Hr.
  destruct (NoDup_mid _ _ _ Hnd) as (Hr1 & Hr2 & _).
  assert (Er : <[r := b']> h !! r = Some b')
    by (apply list_lookup_insert_eq, Hr).
  assert (Hsame : ∀ x, x ≠ r → <[r := b']> h !! x = h !! x)
    by (intros x Hx; apply list_lookup_insert_ne; congruence).
  split.
  - split; [exact Hh|]. split; [exact Hnd|].
    eapply dlseg_ext; [|exact Hs]. intros x Hx.
    destruct (decide (x = r)) as [->|Hxr].
    + exists b, b'. auto.
    + destruct (dlseg_lookup _ _ _ _ _ Hs Hx) as [bx Ex].
      exists bx, bx. rewrite Hsame by assumption. auto.
  - apply view_frame; auto. intros x Hx. now rewrite Hsame.
Qed.

Lemma absorb_next_last a h l1 r :
  chain a h (l1 ++ [r]) → absorb_next r h = Ret tt h.
Proof.
  intros Hc. destruct (chain_mid _ _ _ _ _ Hc) as (b & E & _ & Hn & _).
  destruct b as [s z f p nx]; simpl in Hn; subst nx.
  unfold absorb_next. run. reflexivity.
Qed.

Lemma absorb_next_used a h l1 r n l2 bn :
  chain a h (l1 ++ r :: n :: l2) → h !! n = Some bn → free bn = false →
  absorb_next r h = Ret tt h.
Proof.
  intros Hc En Hf. destruct (chain_mid _ _ _ _ _ Hc) as (b & E & _ & Hn & _).
  destruct b as [s z f p nx]; simpl in Hn; subst nx.
  unfold absorb_next. run. rewrite Hf. reflexivity.
Qed.

Lemma absorb_next_free a h l1 r n l2 b bn :
  chain a h (l1 ++ r :: n :: l2) →
  h !! r = Some b → h !! n = Some bn → free bn = true →
  ∃ h', absorb_next r h = Ret tt h'
    ∧ chain a h' (l1 ++ r :: l2)
    ∧ h' !! r = Some (mkBlock (start b) (size b + size bn) (free b)
                              (prev b) (next bn))
    ∧ (∀ x, x ≠ r → line_of <$> h' !! x = line_of <$> h !! x).
Proof.
  intros Hc E En Hf. pose proof Hc as (Hh & Hnd & _).
  destruct (chain_mid _ _ _ _ _ Hc) as (b0 & E0 & Hp & Hn & Hs1 & Hs2).
  rewrite E in E0. injection E0 as <-.
  destruct Hs2 as (bn0 & En0 & Hpn & Hnn & Hs2).
  rewrite En in En0. injection En0 as <-.
  destruct (NoDup_mid _ _ _ Hnd) as (Hr1 & Hr2 & Hnd1 & Hnd2 & H12).
  apply NoDup_cons in Hnd2 as [Hn2 Hnd2].
  apply not_elem_of_cons in Hr2 as [Hrn Hr2].
  pose proof (lookup_lt_Some _ _ _ E) as Hrlt.
  pose proof (lookup_lt_Some _ _ _ En) as Hnlt.
  destruct b as [s z f p nx]; destruct bn as [sn zn fn pn nnx];
    cbn [start size free prev next head_or] in *; subst.
  assert (Hhead : head_or (l1 ++ r :: l2) None = Some (head a))
    by (rewrite head_or_app in *; exact Hh).
  assert (Hnd' : NoDup (l1 ++ r :: l2)).
  { apply NoDup_app. split; [exact Hnd1|]. split.
    - intros x Hx Hx'. apply elem_of_cons in Hx' as [->|Hx']; [done|].
      apply (H12 x Hx). now right.
    - apply NoDup_cons. auto. }
  unfold absorb_next. destruct l2 as [|nn l2].
  - cbn [head_or] in *. run. eexists. split; [reflexivity|].
    split; [|split; [heap_lookup|]].
    + eapply chain_build; [exact Hhead|exact Hnd'|heap_lookup|..].
      * reflexivity.
      * reflexivity.
      * eapply dlseg_same; [|exact Hs1]. intros x Hx.
        assert (r ≠ x) by (now intros ->). heap_lookup.
      * exact I.
    + intros x Hx. assert (r ≠ x) by congruence.
      f_equal. heap_lookup.
  - cbn [head_or] in *.
    destruct Hs2 as (bnn & Enn & Hpnn & Hnnn & Hs2).
    apply not_elem_of_cons in Hr2 as [Hrnn Hr2].
    apply not_elem_of_cons in Hn2 as [Hnnn' Hn2].
    pose proof (lookup_lt_Some _ _ _ Enn) as Hnnlt.
    apply NoDup_cons in Hnd2 as [Hnn2 Hnd2].
    run. eexists. split; [reflexivity|].
    split; [|split; [heap_lookup|]].
    + eapply chain_build; [exact Hhead|exact Hnd'|heap_lookup|..].
      * reflexivity.
      * reflexivity.
      * eapply dlseg_same; [|exact Hs1]. intros x Hx.
        assert (r ≠ x) by (now intros ->).
        assert (nn ≠ x).
        { intros ->. apply (H12 x Hx). right. now left. }
        heap_lookup.
      * exists (with_prev (Some r) bnn). split; [heap_lookup|].
        repeat split; auto.
        eapply dlseg_same; [|exact Hs2]. intros x Hx.
        assert (r ≠ x) by (now intros ->).
        assert (nn ≠ x) by (now intros ->).
        heap_lookup.
    + intros x Hx. assert (r ≠ x) by congruence.
      destruct (decide (nn = x)) as [<-|Hxn].
      * rewrite Enn. replace (_ !! nn) with (Some (with_prev (Some r) bnn))
          by (symmetry; heap_lookup).
        reflexivity.
      * f_equal. heap_lookup.
Qed.

Lemma absorb_into_prev_first a h r l2 :
  chain a h (r :: l2) → absorb_into_prev r h = Ret tt h.
Proof.
  intros Hc. destruct (chain_mid a h [] r l2 Hc) as (b & E & Hp & _).
  destruct b as [s z f p nx]; cbn in Hp; subst p.
  unfold absorb_into_prev. run. reflexivity.
Qed.

Lemma chain_pair a h l1 p r l2 :
  chain a h (l1 ++ p :: r :: l2) →
  ∃ bp b, h !! p = Some bp ∧ h !! r = Some b
          ∧ prev bp = last_or l1 None ∧ next bp = Some r
          ∧ prev b = Some p ∧ next b = head_or l2 None
          ∧ dlseg h None l1 (Some p) ∧ dlseg h (Some r) l2 None.
Proof.
  intros Hc. destruct (chain_mid _ _ _ _ _ Hc) as (bp & Ep & Hp & Hn & Hs1 & Hs2).
  destruct Hs2 as (b & E & Hpb & Hnb & Hs2). exists bp, b. auto 10.
Qed.

Lemma absorb_into_prev_used a h l1 p r l2 bp :
  chain a h (l1 ++ p :: r :: l2) → h !! p = Some bp → free bp = false →
  absorb_into_prev r h = Ret tt h.
Proof.
  intros Hc Ep Hf.
  destruct (chain_pair _ _ _ _ _ _ Hc) as (bp0 & b & _ & E & _ & _ & Hpb & _).
  destruct b as [s z f pv nx]; simpl in Hpb; subst pv.
  unfold absorb_into_prev. run. rewrite Hf. reflexivity.
Qed.

Lemma absorb_into_prev_free a h l1 p r l2 bp b :
  chain a h (l1 ++ p :: r :: l2) →
  h !! p = Some bp → h !! r = Some b → free bp = true →
  ∃ h', absorb_into_prev r h = Ret tt h'
    ∧ chain a h' (l1 ++ p :: l2)
    ∧ h' !! p = Some (mkBlock (start bp) (size bp + size b) (free bp)
                              (prev bp) (next b))
    ∧ (∀ x, x ≠ p → line_of <$> h' !! x = line_of <$> h !! x).
Proof.
  intros Hc Ep E Hf. pose proof Hc as (Hh & Hnd & _).
  destruct (chain_pair _ _ _ _ _ _ Hc)
    as (bp0 & b0 & Ep0 & E0 & Hpp & Hnp & Hpb & Hnb & Hs1 & Hs2).
  rewrite Ep in Ep0. injection Ep0 as <-.
  rewrite E in E0. injection E0 as <-.
  destruct (NoDup_mid _ _ _ Hnd) as (Hp1 & Hp2 & Hnd1 & Hnd2 & H12).
  apply NoDup_cons in Hnd2 as [Hr2 Hnd2].
  apply not_elem_of_cons in Hp2 as [Hpr Hp2].
  pose proof (lookup_lt_Some _ _ _ E) as Hrlt.
  pose proof (lookup_lt_Some _ _ _ Ep) as Hplt.
  destruct b as [s z f pv nx]; destruct bp as [sp zp fp pp np];
    cbn [start size free prev next head_or] in *; subst.
  assert (Hhead : head_or (l1 ++ p :: l2) None = Some (head a))
    by (rewrite head_or_app in *; exact Hh).
  assert (Hnd' : NoDup (l1 ++ p :: l2)).
  { apply NoDup_app. split; [exact Hnd1|]. split.
    - intros x Hx Hx'. apply elem_of_cons in Hx' as [->|Hx']; [done|].
      apply (H12 x Hx). now right.
    - apply NoDup_cons. auto. }
  unfold absorb_into_prev. destruct l2 as [|n l2].
  - cbn [head_or] in *. run. eexists. split; [reflexivity|].
    split; [|split; [heap_lookup|]].
    + eapply chain_build; [exact Hhead|exact Hnd'|heap_lookup|..].
      * reflexivity.
      * reflexivity.
      * eapply dlseg_same; [|exact Hs1]. intros x Hx.
        assert (p ≠ x) by (now intros ->). heap_lookup.
      * exact I.
    + intros x Hx. assert (p ≠ x) by congruence.
      f_equal. heap_lookup.
  - cbn [head_or] in *.
    destruct Hs2 as (bn & En & Hpn & Hnn & Hs2).
    apply not_elem_of_cons in Hp2 as [Hpn' Hp2].
    apply not_elem_of_cons in Hr2 as [Hrn Hr2].
    pose proof (lookup_lt_Some _ _ _ En) as Hnlt.
    apply NoDup_cons in Hnd2 as [Hn2 Hnd2].
    run. eexists. split; [reflexivity|].
    split; [|split; [heap_lookup|]].
    + eapply chain_build; [exact Hhead|exact Hnd'|heap_lookup|..].
      * reflexivity.
      * reflexivity.
      * eapply dlseg_same; [|exact Hs1]. intros x Hx.
        assert (p ≠ x) by (now intros ->).
        assert (n ≠ x).
        { intros ->. apply (H12 x Hx). right. now left. }
        heap_lookup.
      * exists (with_prev (Some p) bn). split; [heap_lookup|].
        repeat split; auto.
        eapply dlseg_same; [|exact Hs2]. intros x Hx.
        assert (p ≠ x) by (now intros ->).
        assert (n ≠ x) by (now intros ->).
        heap_lookup.
    + intros x Hx. assert (p ≠ x) by congruence.
      destruct (decide (n = x)) as [<-|Hxn].
      * rewrite En. replace (_ !! n) with (Some (with_prev (Some p) bn))
          by (symmetry; heap_lookup).
        reflexivity.
      * f_equal. heap_lookup.
Qed.

Lemma is_used_frame (h h' : heap) x :
  line_of <$> h' !! x = line_of <$> h !! x → is_used h x → is_used h' x.
Proof.
  intros Hl (b & E & Hf). rewrite E in Hl.
  destruct (h' !! x) as [b'|] eqn:E'; [|discriminate].
  cbn in Hl. unfold line_of in Hl. exists b'. split; congruence.
Qed.

(** The first coalescing statement, on a sequence whose block [r] has just
    been marked free. *)
Lemma free_block_next a h l1 r l2 b e :
  chain a h (l1 ++ r :: l2) → h !! r = Some b → free b = true →
  tiles (start b + size b) (view h l2) e → unmerged false (view h l2) →
  ∃ h' l2' z',
    absorb_next r h = Ret tt h'
    ∧ chain a h' (l1 ++ r :: l2')
    ∧ h' !! r = Some (mkBlock (start b) z' true (prev b) (head_or l2' None))
    ∧ (∀ x, x ≠ r → line_of <$> h' !! x = line_of <$> h !! x)
    ∧ (size b <= z')%Z
    ∧ tiles (start b + z') (view h' l2') e
    ∧ unmerged true (view h' l2')
    ∧ (∀ x, x ∈ l2' → x ∈ l2)
    ∧ (∀ x, x ∈ l2 → is_used h x → x ∈ l2').
Proof.
  intros Hc E Hf Ht Hu.
  destruct (chain_mid _ _ _ _ _ Hc) as (b0 & E0 & Hp & Hn & Hs1 & Hs2).
  rewrite E in E0. injection E0 as <-.
  destruct l2 as [|n l2].
  - exists h, [], (size b). rewrite (absorb_next_last _ _ _ _ Hc).
    destruct b as [s z f p nx]; cbn [start size free prev next head_or] in *.
    subst. split; [reflexivity|]. split; [exact Hc|]. split; [exact E|].
    split; [auto|]. split; [lia|]. split; [exact Ht|]. split; [exact I|].
    split; auto.
  - destruct Hs2 as (bn & En & Hpn & Hnn & Hs2).
    cbn [view map] in Ht, Hu. rewrite En in Ht, Hu.
    destruct Hu as [_ Hu]. destruct Ht as (Hsn & Hzn & Ht).
    cbn [line_of fst snd] in *.
    destruct (free bn) eqn:Hfn.
    + destruct (absorb_next_free _ _ _ _ _ _ _ _ Hc E En Hfn)
        as (h' & Hrun & Hc' & Er & Hframe).
      pose proof Hc as (_ & Hnd & _).
      destruct (NoDup_mid _ _ _ Hnd) as (_ & Hr2 & _).
      apply not_elem_of_cons in Hr2 as [_ Hr2].
      assert (Hv : view h' l2 = view h l2).
      { apply view_same. intros x Hx. apply Hframe. now intros ->. }
      exists h', l2, (size b + size bn)%Z. rewrite Hv.
      split; [exact Hrun|]. split; [exact Hc'|]. split; [congruence|].
      split; [exact Hframe|]. split; [lia|].
      split; [now rewrite Z.add_assoc|]. split; [exact Hu|].
      split; [intros x Hx; now right|].
      intros x Hx (bx & Ex & Hfx).
      apply elem_of_cons in Hx as [->|Hx]; [congruence|exact Hx].
    + exists h, (n :: l2), (size b).
      rewrite (absorb_next_used _ _ _ _ _ _ _ Hc En Hfn).
      split; [reflexivity|]. split; [exact Hc|].
      split.
      { destruct b as [s z f p nx]; cbn [start size free prev next head_or] in *.
        now subst. }
      split; [auto|]. split; [lia|].
      cbn [view map]. rewrite En.
      cbn [from_option line_of tiles unmerged]. rewrite Hfn.
      split; [auto|]. split; [|auto].
      split; [intros [_ ?]; discriminate|exact Hu].
Qed.

(** The second coalescing statement, on a sequence whose block [r] is free
    and is not followed by a free block. *)
Lemma free_block_prev a h l1 r l2 b e :
  chain a h (l1 ++ r :: l2) → h !! r = Some b → free b = true →
  (0 < size b)%Z →
  tiles 0 (view h l1) (start b) → unmerged false (view h l1) →
  tiles (start b + size b) (view h l2) e → unmerged true (view h l2) →
  ∃ h' l',
    absorb_into_prev r h = Ret tt h'
    ∧ chain a h' l'
    ∧ tiles 0 (view h' l') e
    ∧ unmerged false (view h' l')
    ∧ (∀ x, x ≠ r → x ∈ l1 ++ r :: l2 → x ∈ l')
    ∧ (∀ x, x ≠ r → is_used h x → is_used h' x).
Proof.
  intros Hc E Hf Hz Ht1 Hu1 Ht2 Hu2.
  destruct l1 as [|p l1 _] using rev_ind.
  - exists h, (r :: l2). rewrite (absorb_into_prev_first _ _ _ _ Hc).
    split; [reflexivity|]. split; [exact Hc|].
    cbn [view map app] in *. rewrite E.
    cbn [from_option line_of tiles unmerged] in *. rewrite Hf.
    rewrite <- Ht1 in Ht2 |- *.
    split; [auto|]. split; [|auto].
    split; [intros [? _]; discriminate|exact Hu2].
  - rewrite <- app_assoc in Hc. cbn [app] in Hc.
    destruct (chain_pair _ _ _ _ _ _ Hc) as (bp & b0 & Ep & E0 & _).
    rewrite E in E0. injection E0 as <-.
    rewrite view_app in Ht1, Hu1. cbn [view map] in Ht1, Hu1.
    rewrite Ep in Ht1, Hu1. cbn [from_option] in Ht1, Hu1.
    apply tiles_app in Ht1 as (m & Ht1 & Hsp & Hzp & Hm).
    apply unmerged_app in Hu1 as (Hu1 & Hup & _).
    cbn [tiles line_of] in *.
    destruct (free bp) eqn:Hfp.
    + destruct (absorb_into_prev_free _ _ _ _ _ _ _ _ Hc Ep E Hfp)
        as (h' & Hrun & Hc' & Ep' & Hframe).
      pose proof Hc as (_ & Hnd & _).
      destruct (NoDup_mid _ _ _ Hnd) as (Hp1 & Hp2 & _).
      apply not_elem_of_cons in Hp2 as [Hpr Hp2].
      exists h', (l1 ++ p :: l2).
      split; [exact Hrun|]. split; [exact Hc'|].
      rewrite (view_frame h h' l1 p l2 _ Ep' Hframe Hp1 Hp2).
      unfold line_of. cbn [start size free]. rewrite Hfp.
      split; [|split; [|split]].
      * apply tiles_app. exists m. split; [exact Ht1|].
        cbn [tiles]. repeat split; auto; [lia|].
        replace (m + (size bp + size b))%Z with (start b + size b)%Z by lia.
        exact Ht2.
      * apply unmerged_app. split; [exact Hu1|].
        cbn [unmerged]. split; [exact Hup|exact Hu2].
      * intros x Hxr Hx. rewrite <- app_assoc in Hx. cbn [app] in Hx.
        apply elem_of_app in Hx as [Hx|Hx]; apply elem_of_app; [now left|].
        right. apply elem_of_cons in Hx as [->|Hx]; [now left|].
        apply elem_of_cons in Hx as [->|Hx]; [done|now right].
      * intros x Hxr Hux. eapply is_used_frame; [|exact Hux].
        apply Hframe. intros ->. destruct Hux as (bx & Ex & Hfx). congruence.
    + exists h, (l1 ++ p :: r :: l2).
      rewrite (absorb_into_prev_used _ _ _ _ _ _ _ Hc Ep Hfp).
      split; [reflexivity|]. split; [exact Hc|].
      replace (l1 ++ p :: r :: l2) with ((l1 ++ [p]) ++ r :: l2)
        by (now rewrite <- app_assoc).
      rewrite (view_mid _ _ _ _ _ E), view_app. cbn [view map].
      rewrite Ep. cbn [from_option]. unfold line_of.
      split; [|split; [|split]]; [| |auto|auto].
      * apply tiles_app. exists (start b). split.
        -- apply tiles_app. exists m. cbn [tiles]. auto.
        -- cbn [tiles]. auto.
      * apply unmerged_app. split.
        -- apply unmerged_app. split; [exact Hu1|]. cbn [unmerged].
           rewrite Hfp. auto.
        -- rewrite last_free_snoc. cbn [unmerged]. rewrite Hfp, Hf.
           split; [intros [? _]; discriminate|exact Hu2].
Qed.

(** ** Preservation of the invariant *)

Lemma tiles_mid s0 v1 s z f v2 e :
  tiles s0 (v1 ++ (s, z, f) :: v2) e
  ↔ tiles s0 v1 s ∧ (0 < z)%Z ∧ tiles (s + z) v2 e.
Proof.
  rewrite tiles_app. cbn [tiles]. split.
  - intros (m & H1 & -> & Hz & H2). auto.
  - intros (H1 & Hz & H2). eauto.
Qed.

Lemma unmerged_mid pf v1 s z f v2 :
  unmerged pf (v1 ++ (s, z, f) :: v2)
  ↔ unmerged pf v1 ∧ ¬ (last_free pf v1 = true ∧ f = true) ∧ unmerged f v2.
Proof. rewrite unmerged_app. cbn [unmerged]. tauto. Qed.

Lemma unmerged_true_false v : unmerged true v → unmerged false v.
Proof. apply unmerged_weaken. Qed.

Lemma inv_init total h0 a h :
  (0 < total)%Z → init total h0 = Ret a h → inv a h [head a] [].
Proof.
  intros Hpos Hrun. unfold init in Hrun. rewrite run_new in Hrun.
  injection Hrun as <- <-. cbn [head total_memory].
  assert (E : (h0 ++ [mkBlock 0 total true None None]) !! length h0
              = Some (mkBlock 0 total true None None))
    by (now apply list_lookup_middle).
  split; [|split; [|split]].
  - split; [reflexivity|]. split; [apply NoDup_singleton|].
    simpl. eexists. split; [exact E|]. auto.
  - cbn [view map]. rewrite E. simpl. split; [reflexivity|]. split; lia.
  - cbn [view map]. rewrite E. simpl. split; [|exact I].
    intros [? _]; discriminate.
  - split; [apply NoDup_nil_2|]. intros r Hr. now apply elem_of_nil in Hr.
Qed.

Lemma first_fit_inv a h l outstanding sz fuel :
  inv a h l outstanding → length l < fuel →
  (0 < sz)%Z →
  ((∀ r b, r ∈ l → h !! r = Some b → fits sz b = false)
   ∧ first_fit a fuel sz h = Ret None h)
  ∨ ∃ r h' l', first_fit a fuel sz h = Ret (Some r) h'
               ∧ inv a h' l' (outstanding ++ [r]).
Proof.
  intros (Hc & Ht & Hu & Hnd & Hout) Hfuel Hsz.
  pose proof Hc as (_ & Hndl & Hs).
  destruct (first_fit_point h sz l)
    as [Hno|(l1 & r & l2 & b & -> & E & Hb & Hno)].
  { intros r Hr. eapply dlseg_lookup; eauto. }
  { left. split; [exact Hno|]. now apply (first_fit_none a h l). }
  right. exists r.
  assert (Hrun : first_fit a fuel sz h
                 = (x ← _allocate_block r sz; ret (Some x)) h).
  { eapply first_fit_found; eauto. rewrite length_app in Hfuel. lia. }
  unfold fits in Hb. apply andb_true_iff in Hb as [Hf Hle].
  apply Z.leb_le in Hle.
  destruct (NoDup_mid _ _ _ Hndl) as (Hr1 & Hr2 & _).
  assert (Hfresh : r ∉ outstanding).
  { intros Hin. destruct (Hout r Hin) as [_ (b' & E' & Hf')]. congruence. }
  assert (Hnd' : NoDup (outstanding ++ [r])).
  { apply NoDup_app. split; [exact Hnd|]. split; [|apply NoDup_singleton].
    intros x Hx Hx'. apply list_elem_of_singleton in Hx' as ->. done. }
  rewrite (view_mid _ _ _ _ _ E) in Ht, Hu. unfold line_of in Ht, Hu.
  apply tiles_mid in Ht as (Ht1 & Hz & Ht2).
  apply unmerged_mid in Hu as (Hu1 & _ & Hu2). rewrite Hf in Hu2.
  destruct (decide (size b = sz)) as [<-|Hne].
  - destruct (allocate_exact_chain _ _ _ _ _ _ Hc E) as [Hc' Hv].
    exists (<[r := with_free false b]> h), (l1 ++ r :: l2).
    split; [rewrite Hrun; now erewrite run_bind by (now apply allocate_block_exact)|].
    split; [exact Hc'|]. rewrite Hv.
    split; [now apply tiles_mid|].
    split.
    { apply unmerged_mid. split; [exact Hu1|].
      split; [intros [_ ?]; discriminate|now apply unmerged_true_false]. }
    split; [exact Hnd'|]. intros x Hx.
    pose proof (lookup_lt_Some _ _ _ E) as Hrlt.
    apply elem_of_app in Hx as [Hx|Hx].
    + destruct (Hout x Hx) as [Hxl Hux]. split; [exact Hxl|].
      eapply is_used_frame; [|exact Hux].
      rewrite list_lookup_insert_ne; [done|]. intros ->. done.
    + apply list_elem_of_singleton in Hx as ->.
      split; [apply elem_of_app; right; now left|].
      exists (with_free false b). split; [|reflexivity].
      now apply list_lookup_insert_eq.
  - destruct (allocate_split_chain _ _ _ _ _ _ sz Hc E Hne)
      as (h' & Hrun' & Hc' & Hv & Er & Enb & Hframe).
    exists h', (l1 ++ r :: length h :: l2).
    split; [rewrite Hrun; now erewrite run_bind by exact Hrun'|].
    split; [exact Hc'|]. rewrite Hv.
    split.
    { apply tiles_mid. split; [exact Ht1|]. split; [exact Hsz|].
      cbn [tiles]. split; [reflexivity|]. split; [lia|].
      replace (start b + sz + (size b - sz))%Z with (start b + size b)%Z by lia.
      exact Ht2. }
    split.
    { apply unmerged_mid. split; [exact Hu1|].
      split; [intros [_ ?]; discriminate|].
      cbn [unmerged]. split; [intros [? _]; discriminate|exact Hu2]. }
    split; [exact Hnd'|]. intros x Hx.
    apply elem_of_app in Hx as [Hx|Hx].
    + destruct (Hout x Hx) as [Hxl Hux]. split.
      * apply elem_of_app in Hxl as [Hxl|Hxl]; apply elem_of_app;
          [now left|right].
        apply elem_of_cons in Hxl as [->|Hxl]; [now left|now do 2 right].
      * eapply is_used_frame; [|exact Hux]. apply Hframe.
        -- eapply chain_lt; eauto.
        -- intros ->. done.
    + apply list_elem_of_singleton in Hx as ->.
      split; [apply elem_of_app; right; now left|].
      eexists. split; [exact Er|reflexivity].
Qed.

Lemma list_remove_first_subseteq r l x :
  x ∈ list_remove_first r l → x ∈ l.
Proof.
  induction l as [|y l IH]; simpl; [auto|].
  destruct (decide (y = r)) as [->|Hy]; intros Hx.
  - now right.
  - apply elem_of_cons in Hx as [->|Hx]; [now left|right; auto].
Qed.

Lemma list_remove_first_NoDup r l :
  NoDup l → NoDup (list_remove_first r l) ∧ r ∉ list_remove_first r l.
Proof.
  induction 1 as [|y l Hy Hnd [IH1 IH2]]; simpl.
  - split; [apply NoDup_nil_2|]. intros Hin. now apply elem_of_nil in Hin.
  - destruct (decide (y = r)) as [->|Hyr]; [auto|]. split.
    + apply NoDup_cons. split; [|exact IH1].
      intros Hin. apply Hy. eapply list_remove_first_subseteq, Hin.
    + intros Hin. apply elem_of_cons in Hin as [->|Hin]; auto.
Qed.

Lemma free_block_inv a h l outstanding r :
  inv a h l outstanding → r ∈ outstanding →
  ∃ h' l', free_block r h = Ret tt h'
           ∧ inv a h' l' (list_remove_first r outstanding).
Proof.
  intros (Hc & Ht & Hu & Hnd & Hout) Hr.
  destruct (Hout r Hr) as [Hrl (b & E & Hf)].
  apply list_elem_of_split in Hrl as (l1 & l2 & ->).
  pose proof Hc as (_ & Hndl & _).
  destruct (NoDup_mid _ _ _ Hndl) as (Hr1 & Hr2 & _).
  rewrite (view_mid _ _ _ _ _ E) in Ht, Hu. unfold line_of in Ht, Hu.
  apply tiles_mid in Ht as (Ht1 & Hz & Ht2).
  apply unmerged_mid in Hu as (Hu1 & _ & Hu2). rewrite Hf in Hu2.
  (* block.free = True *)
  set (h1 := <[r := with_free true b]> h).
  pose proof (lookup_lt_Some _ _ _ E) as Hrlt.
  assert (E1 : h1 !! r = Some (with_free true b))
    by (now apply list_lookup_insert_eq).
  assert (Hsame1 : ∀ x, x ≠ r → h1 !! x = h !! x)
    by (intros x Hx; apply list_lookup_insert_ne; congruence).
  destruct (chain_update a h l1 r l2 b (with_free true b) Hc E eq_refl eq_refl)
    as [Hc1 _]. fold h1 in Hc1.
  assert (Hv1 : view h1 l1 = view h l1).
  { apply view_same. intros x Hx. rewrite Hsame1; [done|]. now intros ->. }
  assert (Hv2 : view h1 l2 = view h l2).
  { apply view_same. intros x Hx. rewrite Hsame1; [done|]. now intros ->. }
  (* first coalescing statement *)
  destruct (free_block_next a h1 l1 r l2 (with_free true b)
              (total_memory a) Hc1 E1 eq_refl)
    as (h2 & l2' & z' & Hrun2 & Hc2 & E2 & Hframe2 & Hz' & Ht2' & Hu2'
        & Hsub & Hkeep).
  { now rewrite Hv2. }
  { now rewrite Hv2. }
  cbn [start size prev with_free] in *.
  assert (Hv12 : view h2 l1 = view h l1).
  { rewrite <- Hv1. apply view_same. intros x Hx. apply Hframe2.
    now intros ->. }
  (* second coalescing statement *)
  destruct (free_block_prev a h2 l1 r l2' _ (total_memory a) Hc2 E2 eq_refl)
    as (h3 & l3 & Hrun3 & Hc3 & Ht3 & Hu3 & Hin3 & Hused3);
    cbn [start size]; rewrite ?Hv12; auto; [lia|].
  exists h3, l3. split.
  { unfold free_block, set_free.
    erewrite run_setattr by exact E. fold h1.
    erewrite run_bind by exact Hrun2. exact Hrun3. }
  split; [exact Hc3|]. split; [exact Ht3|]. split; [exact Hu3|].
  destruct (list_remove_first_NoDup r _ Hnd) as [Hnd' Hr'].
  split; [exact Hnd'|]. intros x Hx.
  assert (Hxr : x ≠ r) by (intros ->; done).
  apply list_remove_first_subseteq in Hx.
  destruct (Hout x Hx) as [Hxl Hux]. split.
  - apply Hin3; [exact Hxr|].
    apply elem_of_app in Hxl as [Hxl|Hxl]; apply elem_of_app; [now left|].
    right. apply elem_of_cons in Hxl as [->|Hxl]; [done|].
    right. apply Hkeep; [exact Hxl|].
    eapply is_used_frame; [|exact Hux]. now rewrite Hsame1.
  - apply Hused3; [exact Hxr|].
    eapply is_used_frame; [|exact Hux].
    rewrite Hframe2 by exact Hxr. now rewrite Hsame1.
Qed.

(** A scan that returned keeps its result when given a larger budget. *)
Lemma first_fit_loop_mono sz fuel :
  ∀ c h x h', first_fit_loop fuel c sz h = Ret x h' →
  ∀ fuel', fuel ≤ fuel' → first_fit_loop fuel' c sz h = Ret x h'.
Proof.
  induction fuel as [|fuel IH]; intros c h x h' H fuel' Hle; [discriminate|].
  destruct fuel' as [|fuel']; [lia|].
  destruct c as [r|]; [|exact H].
  cbn [first_fit_loop] in *. unfold bind in *.
  destruct (get_free r h) as [f h1| |]; try discriminate.
  match type of H with
  | context [match ?m h1 with _ => _ end] => destruct (m h1) as [ok h2| |]
  end; try discriminate.
  destruct ok; [exact H|].
  destruct (get_next r h2) as [nx h3| |]; try discriminate.
  apply (IH _ _ _ _ H). lia.
Qed.

Lemma first_fit_mono a sz fuel fuel' h x h' :
  first_fit a fuel sz h = Ret x h' → fuel ≤ fuel' →
  first_fit a fuel' sz h = Ret x h'.
Proof. unfold first_fit. intros H Hle. eapply first_fit_loop_mono; eauto. Qed.

Lemma reach_inv a h outstanding :
  reach a h outstanding → ∃ l, inv a h l outstanding.
Proof.
  induction 1 as [h0 h Hpos Hrun
                 |h outstanding fuel sz r h' _ [l IH] Hsz Hrun
                 |h outstanding fuel sz h' _ [l IH] Hsz Hrun
                 |h outstanding r h' _ [l IH] Hr Hrun].
  - exists [head a]. eapply inv_init; eauto.
  - apply first_fit_mono with (fuel' := fuel + S (length l)) in Hrun; [|lia].
    destruct (first_fit_inv a h l outstanding sz (fuel + S (length l)) IH)
      as [[_ Hnone]|(r0 & h0 & l' & Hsome & Hinv)]; [lia|exact Hsz|congruence|].
    rewrite Hsome in Hrun. injection Hrun as -> ->. eauto.
  - apply first_fit_mono with (fuel' := fuel + S (length l)) in Hrun; [|lia].
    destruct (first_fit_inv a h l outstanding sz (fuel + S (length l)) IH)
      as [[_ Hnone]|(r0 & h0 & l' & Hsome & Hinv)]; [lia|exact Hsz| |congruence].
    rewrite Hnone in Hrun. injection Hrun as <-. eauto.
  - destruct (free_block_inv a h l outstanding r IH Hr)
      as (h1 & l' & Hrun' & Hinv).
    rewrite Hrun' in Hrun. injection Hrun as <-. eauto.
Qed.

(** ** The properties of the specification *)

Lemma chain_nonempty a h l : chain a h l → l ≠ [].
Proof. intros (Hh & _) ->. discriminate. Qed.

(** C1 (invariant preservation).  In every state the driver can reach from an
    allocator built with a positive [total_memory], by [first_fit] with a
    positive size and [free_block] on handles it holds, [print_memory]
    terminates and shows a sequence that is ordered by start without gaps,
    starts at 0 and ends at [total_memory], has no two adjacent free blocks
    and only positive sizes; moreover each further proper call returns. *)
Theorem invariant_preservation a h outstanding :
  reach a h outstanding →
  (∃ v, (∀ fuel, length v < fuel → print_memory a fuel h = Ret v h)
        ∧ contiguous v
        ∧ bounded (total_memory a) v
        ∧ no_adjacent_free v
        ∧ positive_sizes v)
  ∧ (∀ sz, (0 < sz)%Z → ∃ fuel x h', first_fit a fuel sz h = Ret x h')
  ∧ (∀ r, r ∈ outstanding → ∃ h', free_block r h = Ret tt h').
Proof.
  intros Hreach. destruct (reach_inv _ _ _ Hreach) as [l Hinv].
  pose proof Hinv as (Hc & Ht & Hu & _).
  split; [|split].
  - exists (view h l). split; [|split; [|split; [|split]]].
    + intros fuel Hf. rewrite view_length in Hf.
      now apply print_memory_view with (l := l).
    + eapply tiles_contiguous, Ht.
    + apply tiles_bounded; [|exact Ht].
      pose proof (chain_nonempty _ _ _ Hc). now destruct l.
    + eapply unmerged_no_adjacent_free, Hu.
    + eapply tiles_positive, Ht.
  - intros sz Hsz. exists (S (length l)).
    destruct (first_fit_inv a h l outstanding sz (S (length l)) Hinv)
      as [[_ Hnone]|(r & h' & _ & Hsome & _)]; eauto.
  - intros r Hr.
    destruct (free_block_inv a h l outstanding r Hinv Hr) as (h' & _ & Hrun & _).
    eauto.
Qed.

Lemma reach_round3 : reach arena100 round3 [1].
Proof.
  assert (R0 : reach arena100 round0 [])
    by (apply (reach_init arena100 [] round0); reflexivity).
  assert (R1 : reach arena100 round1 ([] ++ [0]))
    by (apply (reach_alloc arena100 round0 [] 10 40 0 round1 R0); reflexivity).
  assert (R2 : reach arena100 round2 ([0] ++ [1]))
    by (apply (reach_alloc arena100 round1 [0] 10 30 1 round2 R1); reflexivity).
  apply (reach_free arena100 round2 [0; 1] 0 round3 R2);
    [apply list_elem_of_here|reflexivity].
Defined.

Lemma invariant_preservation_witness :
  (∃ v, (∀ fuel, length v < fuel
                 → print_memory arena100 fuel round3 = Ret v round3)
        ∧ contiguous v
        ∧ bounded (total_memory arena100) v
        ∧ no_adjacent_free v
        ∧ positive_sizes v)
  ∧ (∀ sz, (0 < sz)%Z
           → ∃ fuel x h', first_fit arena100 fuel sz round3 = Ret x h')
  ∧ (∀ r, r ∈ [1] → ∃ h', free_block r round3 = Ret tt h').
Proof. apply (invariant_preservation arena100 round3 [1]), reach_round3. Defined.

(** C2 (conservation).  In every state the driver can reach by proper use,
    the sizes of the blocks shown by [print_memory] add up to
    [total_memory]. *)
Theorem conservation a h outstanding :
  reach a h outstanding →
  ∃ v, (∀ fuel, length v < fuel → print_memory a fuel h = Ret v h)
       ∧ sum_sizes v = total_memory a.
Proof.
  intros Hreach. destruct (reach_inv _ _ _ Hreach) as [l (Hc & Ht & _)].
  exists (view h l). split.
  - intros fuel Hf. rewrite view_length in Hf.
    now apply print_memory_view with (l := l).
  - apply tiles_sum in Ht. lia.
Qed.

Lemma conservation_witness :
  ∃ v, (∀ fuel, length v < fuel
                → print_memory arena100 fuel round3 = Ret v round3)
       ∧ sum_sizes v = total_memory arena100.
Proof. apply (conservation arena100 round3 [1]), reach_round3. Defined.



(** ** Releasing a block of another allocator *)




















(** C4 (construction), as the code has it.  [MemoryAllocator(total_memory)]
    checks nothing: for every integer it returns an allocator whose sequence
    is one free block with start 0 and size [total_memory]. *)
Theorem init_single_free_block total h0 :
  ∃ a h, init total h0 = Ret a h
         ∧ total_memory a = total
         ∧ ∀ fuel, 1 < fuel →
                   print_memory a fuel h = Ret [(0%Z, total, true)] h.
Proof.
  eexists _, _. split; [reflexivity|]. split; [reflexivity|].
  intros fuel Hf. destruct fuel as [|[|fuel]]; try lia.
  unfold print_memory. cbn [head print_memory_loop].
  assert (E : (h0 ++ [mkBlock 0 total true None None]) !! length h0
              = Some (mkBlock 0 total true None None))
    by (now apply list_lookup_middle).
  run. reflexivity.
Qed.

(** C4, counterexample.  Construction with a total of 0 or of -5 does not
    fail; it yields an allocator with a block of that size. *)
Lemma init_accepts_non_positive :
  init 0 [] = Ret (mkAllocator 0 0) [mkBlock 0 0 true None None]
  ∧ init (-5) [] = Ret (mkAllocator (-5) 0) [mkBlock 0 (-5) true None None].
Proof. split; reflexivity. Qed.

(** C5 (exhaustion).  When no free block of the sequence has at least the
    requested size, [first_fit] returns [None] and leaves the store as it
    was, whatever the total free capacity is. *)
Theorem first_fit_exhausted a h l sz fuel :
  chain a h l → length l < fuel →
  (∀ r b, r ∈ l → h !! r = Some b → free b = true → (size b < sz)%Z) →
  first_fit a fuel sz h = Ret None h.
Proof.
  intros Hc Hf Hno. apply (first_fit_none a h l); auto.
  intros r b Hr E. unfold fits. destruct (free b) eqn:Hfb; [|reflexivity].
  specialize (Hno r b Hr E Hfb). simpl. apply Z.leb_gt. exact Hno.
Qed.

Lemma chain_round3 : chain arena100 round3 [0; 1; 2].
Proof.
  split; [reflexivity|]. split.
  - apply (bool_decide_unpack _). vm_compute. exact I.
  - simpl. repeat (eexists; split; [reflexivity|]; repeat split).
Defined.

(** C5 on a fragmented arena: [0,40) free, [40,70) used, [70,100) free holds
    70 free units, and a request of 50 fails. *)
Lemma first_fit_exhausted_witness :
  first_fit arena100 4 50 round3 = Ret None round3.
Proof.
  apply (first_fit_exhausted arena100 round3 [0; 1; 2] 50 4).
  - exact chain_round3.
  - simpl. lia.
  - intros r b Hr E Hf.
    repeat (apply elem_of_cons in Hr as [->|Hr]);
      [..|now apply elem_of_nil in Hr];
      vm_compute in E; injection E as <-; vm_compute in Hf;
      first [discriminate Hf|reflexivity].
Defined.

(** C9 (round trip).  From [MemoryAllocator(100)]: [first_fit(40)],
    [first_fit(30)], release of the first handle and [first_fit(35)] all
    succeed; after the release [print_memory] shows [0,40) free, [40,70)
    used, [70,100) free, and after the last allocation [0,35) used, [35,40)
    free, [40,70) used, [70,100) free. *)
Theorem round_trip :
  ∃ a h0 r1 h1 r2 h2 h3 r3 h4,
    init 100 [] = Ret a h0
    ∧ first_fit a 10 40 h0 = Ret (Some r1) h1
    ∧ first_fit a 10 30 h1 = Ret (Some r2) h2
    ∧ free_block r1 h2 = Ret tt h3
    ∧ print_memory a 10 h3
      = Ret [(0, 40, true); (40, 30, false); (70, 30, true)]%Z h3
    ∧ first_fit a 10 35 h3 = Ret (Some r3) h4
    ∧ print_memory a 10 h4
      = Ret [(0, 35, false); (35, 5, true); (40, 30, false); (70, 30, true)]%Z
            h4.
Proof.
  exists arena100, round0, 0, round1, 1, round2, round3, 0, round4.
  repeat split; reflexivity.
Qed.

(** What a successful [first_fit] does to the sequence. *)
Lemma first_fit_success a h l1 r l2 b sz fuel :
  chain a h (l1 ++ r :: l2) → length l1 < fuel →
  (∀ x bx, x ∈ l1 → h !! x = Some bx → fits sz bx = false) →
  h !! r = Some b → fits sz b = true →
  ∃ h' l',
    first_fit a fuel sz h = Ret (Some r) h'
    ∧ chain a h' l'
    ∧ line_of <$> h' !! r = Some (start b, sz, false)
    ∧ ((size b = sz ∧ l' = l1 ++ r :: l2
        ∧ view h' l' = view h l1 ++ (start b, sz, false) :: view h l2)
       ∨ (size b ≠ sz ∧ l' = l1 ++ r :: length h :: l2
          ∧ view h' l'
            = view h l1 ++ (start b, sz, false)
                :: ((start b + sz)%Z, (size b - sz)%Z, true) :: view h l2)).
Proof.
  intros Hc Hf Hno E Hb.
  rewrite (first_fit_found a h l1 r l2 b sz fuel Hc Hf Hno E Hb).
  destruct (decide (size b = sz)) as [<-|Hne].
  - destruct (allocate_exact_chain _ _ _ _ _ _ Hc E) as [Hc' Hv].
    exists (<[r := with_free false b]> h), (l1 ++ r :: l2).
    split; [now erewrite run_bind by (now apply allocate_block_exact)|].
    split; [exact Hc'|]. split; [|left; auto].
    rewrite list_lookup_insert_eq by (eapply lookup_lt_Some, E). reflexivity.
  - destruct (allocate_split_chain _ _ _ _ _ _ sz Hc E Hne)
      as (h' & Hrun & Hc' & Hv & Er & _).
    exists h', (l1 ++ r :: length h :: l2).
    split; [now erewrite run_bind by exact Hrun|].
    split; [exact Hc'|]. split; [now rewrite Er|right; auto].
Qed.

Lemma view_lookup h l i r b :
  l !! i = Some r → h !! r = Some b → view h l !! i = Some (line_of b).
Proof.
  revert i. induction l as [|x l IH]; intros i Hi E; [discriminate|].
  destruct i as [|i]; simpl in *.
  - injection Hi as ->. now rewrite E.
  - now apply IH.
Qed.

Lemma view_elem_of h l r b :
  r ∈ l → h !! r = Some b → line_of b ∈ view h l.
Proof.
  intros Hr E. apply list_elem_of_lookup in Hr as [i Hi].
  apply list_elem_of_lookup. exists i. eapply view_lookup; eauto.
Qed.

Lemma view_elem_of_inv h l ln p n :
  dlseg h p l n → ln ∈ view h l →
  ∃ r b, r ∈ l ∧ h !! r = Some b ∧ ln = line_of b.
Proof.
  intros Hs Hin. unfold view in Hin. apply list_elem_of_In in Hin.
  apply in_map_iff in Hin as (r & Hln & Hr). apply list_elem_of_In in Hr.
  destruct (dlseg_lookup _ _ _ _ _ Hs Hr) as [b E].
  rewrite E in Hln. exists r, b. auto.
Qed.

(** A [first_fit] that returned a handle stopped at the first block that
    fits. *)
Lemma first_fit_returned a h l sz fuel r h' :
  chain a h l → first_fit a fuel sz h = Ret (Some r) h' →
  ∃ l1 l2 b,
    l = l1 ++ r :: l2 ∧ h !! r = Some b ∧ fits sz b = true
    ∧ (∀ x bx, x ∈ l1 → h !! x = Some bx → fits sz bx = false)
    ∧ first_fit a (fuel + S (length l)) sz h = Ret (Some r) h'.
Proof.
  intros Hc Hrun. pose proof Hc as (_ & _ & Hs).
  apply first_fit_mono with (fuel' := fuel + S (length l)) in Hrun; [|lia].
  destruct (first_fit_point h sz l)
    as [Hno|(l1 & r0 & l2 & b & -> & E & Hb & Hno)].
  { intros x Hx. eapply dlseg_lookup; eauto. }
  { rewrite (first_fit_none a h l) in Hrun;
      [discriminate|exact Hc|lia|exact Hno]. }
  destruct (first_fit_success a h l1 r0 l2 b sz
              (fuel + S (length (l1 ++ r0 :: l2))) Hc)
    as (h0 & l' & Hrun0 & _); auto.
  { rewrite length_app. lia. }
  rewrite Hrun0 in Hrun. injection Hrun as -> ->.
  exists l1, l2, b. auto.
Qed.

(** C7 (split correctness).  A [first_fit] that returns a handle found a
    free block of size [z] at least the request, the first such block of the
    sequence; the handle's block then has the requested size and is used.
    When [z] equals the request the sequence is otherwise unchanged and keeps
    its length; when [z] is larger, one free block of size [z - sz] starting
    at [s + sz] follows the handle's block, and the length grows by one. *)
Theorem split_correctness a h l sz fuel r h' :
  chain a h l → first_fit a fuel sz h = Ret (Some r) h' →
  ∃ v1 s z v2 v',
    (∀ F, length l < F → print_memory a F h = Ret (v1 ++ (s, z, true) :: v2) h)
    ∧ (sz <= z)%Z
    ∧ (∀ s1 z1, (s1, z1, true) ∈ v1 → (z1 < sz)%Z)
    ∧ line_of <$> h' !! r = Some (s, sz, false)
    ∧ (∀ F, S (length l) < F → print_memory a F h' = Ret v' h')
    ∧ (z = sz → v' = v1 ++ (s, sz, false) :: v2)
    ∧ (z ≠ sz → v' = v1 ++ (s, sz, false) :: ((s + sz)%Z, (z - sz)%Z, true) :: v2)
    ∧ length v' = length l + (if decide (z = sz) then 0 else 1).
Proof.
  intros Hc Hrun.
  destruct (first_fit_returned _ _ _ _ _ _ _ Hc Hrun)
    as (l1 & l2 & b & -> & E & Hb & Hno & Hrun').
  destruct (first_fit_success a h l1 r l2 b sz
              (fuel + S (length (l1 ++ r :: l2))) Hc)
    as (h0 & l' & Hrun0 & Hc' & Er & Hcases); auto.
  { rewrite length_app. lia. }
  rewrite Hrun0 in Hrun'. injection Hrun' as ->.
  pose proof Hb as Hb'. unfold fits in Hb'.
  apply andb_true_iff in Hb' as [Hf Hle]. apply Z.leb_le in Hle.
  pose proof Hc as (_ & _ & Hs). apply dlseg_app in Hs as [Hs1 _].
  exists (view h l1), (start b), (size b), (view h l2), (view h' l').
  split; [|split; [exact Hle|split; [|split; [exact Er|split]]]].
  - intros F HF. rewrite (print_memory_view a h _ F Hc HF).
    rewrite (view_mid _ _ _ _ _ E). unfold line_of. now rewrite Hf.
  - intros s1 z1 Hin.
    destruct (view_elem_of_inv _ _ _ _ _ Hs1 Hin) as (x & bx & Hx & Ex & Hln).
    specialize (Hno x bx Hx Ex). unfold fits in Hno.
    injection Hln as _ -> Hfx. rewrite <- Hfx in Hno. simpl in Hno.
    now apply Z.leb_gt.
  - intros F HF. apply print_memory_view with (l := l'); [exact Hc'|].
    destruct Hcases as [(_ & -> & _)|(_ & -> & _)];
      rewrite !length_app in *; simpl in *; lia.
  - destruct Hcases as [(Hz & -> & Hv)|(Hz & -> & Hv)].
    + split; [intros _; exact Hv|]. split; [done|].
      rewrite view_length. destruct (decide (size b = sz)); [lia|done].
    + split; [done|]. split; [intros _; exact Hv|].
      rewrite view_length, !length_app. simpl.
      destruct (decide (size b = sz)); [done|lia].
Qed.

Lemma split_correctness_witness :
  ∃ v1 s z v2 v',
    (∀ F, length [0; 1; 2] < F
          → print_memory arena100 F round3 = Ret (v1 ++ (s, z, true) :: v2) round3)
    ∧ (35 <= z)%Z
    ∧ (∀ s1 z1, (s1, z1, true) ∈ v1 → (z1 < 35)%Z)
    ∧ line_of <$> round4 !! 0 = Some (s, 35%Z, false)
    ∧ (∀ F, S (length [0; 1; 2]) < F
            → print_memory arena100 F round4 = Ret v' round4)
    ∧ (z = 35%Z → v' = v1 ++ (s, 35%Z, false) :: v2)
    ∧ (z ≠ 35%Z
       → v' = v1 ++ (s, 35%Z, false) :: ((s + 35)%Z, (z - 35)%Z, true) :: v2)
    ∧ length v'
      = length [0; 1; 2] + (if decide (z = 35%Z) then 0 else 1).
Proof.
  apply (split_correctness arena100 round3 [0; 1; 2] 35 10 0 round4).
  - exact chain_round3.
  - reflexivity.
Defined.

(** C6 (first fit).  When some block of the sequence fits, [first_fit]
    returns a block that fits and whose start is the lowest among the blocks
    that fit.  In the arena [0,10) used, [10,30) free, [30,35) used, [35,85)
    free, [first_fit(15)] returns the block at 10 and leaves [10,25) used
    followed by [25,30) free. *)
Theorem first_fit_lowest_address :
  (∀ a h l sz fuel,
      chain a h l → contiguous (view h l) → length l < fuel →
      (∃ r0 b0, r0 ∈ l ∧ h !! r0 = Some b0 ∧ fits sz b0 = true) →
      ∃ r b h',
        first_fit a fuel sz h = Ret (Some r) h'
        ∧ r ∈ l ∧ h !! r = Some b ∧ fits sz b = true
        ∧ ∀ x bx, x ∈ l → h !! x = Some bx → fits sz bx = true →
                  x = r ∨ (start b < start bx)%Z)
  ∧ print_memory arena85 10 fragmented
    = Ret [(0, 10, false); (10, 20, true); (30, 5, false); (35, 50, true)]%Z
          fragmented
  ∧ ∃ r h',
      first_fit arena85 10 15 fragmented = Ret (Some r) h'
      ∧ start <$> fragmented !! r = Some 10%Z
      ∧ print_memory arena85 10 h'
        = Ret [(0, 10, false); (10, 15, false); (25, 5, true);
               (30, 5, false); (35, 50, true)]%Z h'.
Proof.
  split; [|split; [reflexivity|eexists _, _; repeat split; reflexivity]].
  intros a h l sz fuel Hc [_ Hord] Hf (r0 & b0 & Hr0 & E0 & Hb0).
  pose proof Hc as (_ & _ & Hs).
  destruct (first_fit_point h sz l)
    as [Hno|(l1 & r & l2 & b & -> & E & Hb & Hno)].
  { intros x Hx. eapply dlseg_lookup; eauto. }
  { rewrite (Hno r0 b0 Hr0 E0) in Hb0. discriminate. }
  destruct (first_fit_success a h l1 r l2 b sz fuel Hc)
    as (h' & _ & Hrun & _); auto.
  { rewrite length_app in Hf. lia. }
  exists r, b, h'. split; [exact Hrun|].
  split; [apply elem_of_app; right; now left|]. split; [exact E|].
  split; [exact Hb|]. intros x bx Hx Ex Hbx.
  apply elem_of_app in Hx as [Hx|Hx].
  { rewrite (Hno x bx Hx Ex) in Hbx. discriminate. }
  apply elem_of_cons in Hx as [->|Hx]; [now left|right].
  apply list_elem_of_split in Hx as (l2a & l2b & ->).
  assert (Hi : (l1 ++ r :: l2a ++ x :: l2b) !! length l1 = Some r)
    by (now apply list_lookup_middle).
  assert (Hj : (l1 ++ r :: l2a ++ x :: l2b) !! (length l1 + S (length l2a))
               = Some x).
  { rewrite lookup_app_r by lia.
    replace (length l1 + S (length l2a) - length l1) with (S (length l2a))
      by lia.
    simpl. now apply list_lookup_middle. }
  apply (Hord (length l1) (length l1 + S (length l2a))
              (start b) (size b) (free b) (start bx) (size bx) (free bx)).
  - lia.
  - apply (view_lookup _ _ _ _ _ Hi E).
  - apply (view_lookup _ _ _ _ _ Hj Ex).
Qed.

Lemma first_fit_lowest_address_witness :
  ∃ r b h',
    first_fit arena100 10 35 round3 = Ret (Some r) h'
    ∧ r ∈ [0; 1; 2] ∧ round3 !! r = Some b ∧ fits 35 b = true
    ∧ ∀ x bx, x ∈ [0; 1; 2] → round3 !! x = Some bx → fits 35 bx = true →
              x = r ∨ (start b < start bx)%Z.
Proof.
  apply (proj1 first_fit_lowest_address arena100 round3 [0; 1; 2] 35%Z 10).
  - exact chain_round3.
  - apply (tiles_contiguous 0 _ 100). vm_compute. repeat split.
  - simpl. lia.
  - exists 0. eexists. split; [apply list_elem_of_here|].
    split; reflexivity.
Defined.




(** ** Coalescing, with the neighbours named *)

(** [N] is the free successor of [r], if it has one. *)
Lemma absorb_next_spec a h l1 r N l2 b :
  chain a h (l1 ++ r :: N ++ l2) → h !! r = Some b →
  length N ≤ 1 →
  (∀ x bx, x ∈ N → h !! x = Some bx → free bx = true) →
  (N = [] → ∀ x bx, head_or l2 None = Some x → h !! x = Some bx →
            free bx = false) →
  ∃ h', absorb_next r h = Ret tt h'
    ∧ chain a h' (l1 ++ r :: l2)
    ∧ line_of <$> h' !! r
      = Some (start b, (size b + sum_sizes (view h N))%Z, free b)
    ∧ (∀ x, x ≠ r → line_of <$> h' !! x = line_of <$> h !! x).
Proof.
  intros Hc E HN Hfree Hused. destruct N as [|n [|? ?]]; [| |simpl in HN; lia].
  - cbn [app] in *. exists h.
    assert (Hrun : absorb_next r h = Ret tt h).
    { destruct l2 as [|x l2]; [now apply (absorb_next_last a h l1)|].
      destruct (chain_mid _ _ _ _ _ Hc) as (_ & _ & _ & _ & _ & Hs2).
      destruct Hs2 as (bx & Ex & _).
      apply (absorb_next_used a h l1 r x l2 bx Hc Ex). eauto. }
    split; [exact Hrun|]. split; [exact Hc|]. split; [|auto].
    rewrite E. cbn. unfold line_of. now rewrite Z.add_0_r.
  - cbn [app] in *.
    destruct (chain_mid _ _ _ _ _ Hc) as (_ & _ & _ & _ & _ & Hs2).
    destruct Hs2 as (bn & En & _).
    assert (Hfn : free bn = true) by (apply (Hfree n); [now left|exact En]).
    destruct (absorb_next_free _ _ _ _ _ _ _ _ Hc E En Hfn)
      as (h' & Hrun & Hc' & Er & Hframe).
    exists h'. split; [exact Hrun|]. split; [exact Hc'|]. split; [|exact Hframe].
    rewrite Er. cbn [view map sum_sizes foldr]. rewrite En. cbn.
    now rewrite Z.add_0_r.
Qed.

(** [P] is the free predecessor of [r], if it has one; [keep] is the block
    that remains in the sequence. *)
Lemma absorb_into_prev_spec a h l1 P r l2 b :
  chain a h (l1 ++ P ++ r :: l2) → h !! r = Some b →
  length P ≤ 1 →
  (∀ x bx, x ∈ P → h !! x = Some bx → free bx = true) →
  (P = [] → ∀ x bx, last l1 = Some x → h !! x = Some bx → free bx = false) →
  ∃ h' keep bk, absorb_into_prev r h = Ret tt h'
    ∧ head_or P (Some r) = Some keep
    ∧ h !! keep = Some bk
    ∧ chain a h' (l1 ++ keep :: l2)
    ∧ line_of <$> h' !! keep
      = Some (start bk, sum_sizes (view h (P ++ [r])), free bk)
    ∧ (∀ x, x ≠ keep → line_of <$> h' !! x = line_of <$> h !! x).
Proof.
  intros Hc E HP Hfree Hused. destruct P as [|p [|? ?]]; [| |simpl in HP; lia].
  - cbn [app] in *. exists h, r, b.
    assert (Hrun : absorb_into_prev r h = Ret tt h).
    { destruct l1 as [|x l1 _] using rev_ind;
        [now apply (absorb_into_prev_first a h r l2)|].
      rewrite <- app_assoc in Hc. cbn [app] in Hc.
      destruct (chain_pair _ _ _ _ _ _ Hc) as (bx & _ & Ex & _).
      apply (absorb_into_prev_used a h l1 x r l2 bx Hc Ex).
      apply (Hused eq_refl x); [apply last_snoc|exact Ex]. }
    split; [exact Hrun|]. split; [reflexivity|]. split; [exact E|].
    split; [exact Hc|]. split; [|auto].
    cbn [view map sum_sizes foldr]. rewrite E. cbn. unfold line_of.
    now rewrite Z.add_0_r.
  - cbn [app] in *.
    destruct (chain_pair _ _ _ _ _ _ Hc) as (bp & _ & Ep & _).
    assert (Hfp : free bp = true) by (apply (Hfree p); [now left|exact Ep]).
    destruct (absorb_into_prev_free _ _ _ _ _ _ _ _ Hc Ep E Hfp)
      as (h' & Hrun & Hc' & Ep' & Hframe).
    exists h', p, bp. split; [exact Hrun|]. split; [reflexivity|].
    split; [exact Ep|]. split; [exact Hc'|]. split; [|exact Hframe].
    rewrite Ep'. cbn [view map sum_sizes foldr]. rewrite Ep, E. cbn.
    now rewrite Z.add_0_r.
Qed.

Lemma sum_sizes_view_cons h x bx l :
  h !! x = Some bx →
  sum_sizes (view h (x :: l)) = (size bx + sum_sizes (view h l))%Z.
Proof. intros E. cbn [view map sum_sizes foldr]. now rewrite E. Qed.

Lemma line_frame_lookup (h h' : heap) x bx' :
  line_of <$> h' !! x = line_of <$> h !! x → h' !! x = Some bx' →
  ∃ bx, h !! x = Some bx ∧ line_of bx = line_of bx'.
Proof.
  intros Hl E'. rewrite E' in Hl. destruct (h !! x) as [bx|]; [|discriminate].
  exists bx. split; [reflexivity|]. cbn in Hl. congruence.
Qed.

(** C8 (coalescing).  Let [r] be a block of the sequence, [P] its free
    predecessor if it has one and [N] its free successor if it has one.
    [free_block r] returns; in the new sequence the blocks [P], [r], [N] are
    replaced by the first of them, which is free and whose size is the sum of
    their sizes, the blocks before and after are shown as before, and the
    other blocks of [P], [r], [N] are no longer in the sequence. *)
Theorem coalescing a h l1 P r N l2 b :
  chain a h (l1 ++ P ++ r :: N ++ l2) → h !! r = Some b →
  length P ≤ 1 → length N ≤ 1 →
  (∀ x bx, x ∈ P ++ N → h !! x = Some bx → free bx = true) →
  (P = [] → ∀ x bx, last l1 = Some x → h !! x = Some bx → free bx = false) →
  (N = [] → ∀ x bx, head_or l2 None = Some x → h !! x = Some bx →
            free bx = false) →
  ∃ h' keep bk,
    free_block r h = Ret tt h'
    ∧ head_or P (Some r) = Some keep
    ∧ h !! keep = Some bk
    ∧ chain a h' (l1 ++ keep :: l2)
    ∧ (∀ F, length (l1 ++ keep :: l2) < F →
            print_memory a F h'
            = Ret (view h l1
                   ++ (start bk, sum_sizes (view h (P ++ r :: N)), true)
                   :: view h l2) h')
    ∧ (∀ x, x ∈ P ++ r :: N → x ≠ keep → x ∉ l1 ++ keep :: l2).
Proof.
  intros Hc E HP HN Hfree HusedP HusedN.
  pose proof Hc as (_ & Hnd & _).
  rewrite app_assoc in Hc, Hnd.
  destruct (NoDup_mid _ _ _ Hnd) as (Hr1 & Hr2 & Hnd1 & Hnd2 & H12).
  apply not_elem_of_app in Hr1 as [HrL HrP].
  apply not_elem_of_app in Hr2 as [HrN HrR].
  apply NoDup_app in Hnd1 as (HndL & HLP & HndP).
  pose proof (lookup_lt_Some _ _ _ E) as Hrlt.
  (* block.free = True *)
  set (h1 := <[r := with_free true b]> h).
  assert (E1 : h1 !! r = Some (with_free true b))
    by (now apply list_lookup_insert_eq).
  assert (Hsame1 : ∀ x, x ≠ r → h1 !! x = h !! x)
    by (intros x Hx; apply list_lookup_insert_ne; congruence).
  destruct (chain_update a h (l1 ++ P) r (N ++ l2) b (with_free true b)
              Hc E eq_refl eq_refl) as [Hc1 _]. fold h1 in Hc1.
  (* first coalescing statement *)
  destruct (absorb_next_spec a h1 (l1 ++ P) r N l2 _ Hc1 E1 HN)
    as (h2 & Hrun2 & Hc2 & Er2 & Hframe2).
  { intros x bx Hx Ex. rewrite Hsame1 in Ex by (intros ->; done).
    apply (Hfree x); [apply elem_of_app; now right|exact Ex]. }
  { intros -> x bx Hx Ex. rewrite Hsame1 in Ex.
    - now apply (HusedN eq_refl x).
    - intros ->. apply HrR. destruct l2; [discriminate|].
      injection Hx as ->. now left. }
  cbn [start size free with_free] in Er2.
  assert (HvN : view h1 N = view h N).
  { apply view_same. intros x Hx. rewrite Hsame1; [done|]. now intros ->. }
  rewrite HvN in Er2.
  destruct (h2 !! r) as [b2|] eqn:E2; [|discriminate].
  cbn in Er2. unfold line_of in Er2. injection Er2 as Hs2 Hz2 Hf2.
  assert (Hframe12 : ∀ x, x ≠ r → line_of <$> h2 !! x = line_of <$> h !! x).
  { intros x Hx. rewrite Hframe2 by exact Hx. now rewrite Hsame1. }
  (* second coalescing statement *)
  rewrite <- app_assoc in Hc2.
  destruct (absorb_into_prev_spec a h2 l1 P r l2 b2 Hc2 E2 HP)
    as (h3 & keep & bk2 & Hrun3 & Hkeep & Ek2 & Hc3 & Ek3 & Hframe3).
  { intros x bx Hx Ex.
    destruct (line_frame_lookup h h2 x bx) as (bx0 & Ex0 & Hl); auto.
    { apply Hframe12. intros ->. done. }
    unfold line_of in Hl. injection Hl as _ _ <-.
    apply (Hfree x); [apply elem_of_app; now left|exact Ex0]. }
  { intros -> x bx Hx Ex.
    destruct (line_frame_lookup h h2 x bx) as (bx0 & Ex0 & Hl); auto.
    { apply Hframe12. intros ->. apply HrL.
      apply list_elem_of_lookup. exists (pred (length l1)).
      now rewrite <- last_lookup. }
    unfold line_of in Hl. injection Hl as _ _ <-.
    now apply (HusedP eq_refl x). }
  destruct (h3 !! keep) as [bk3|] eqn:Ek3'; [|discriminate].
  cbn in Ek3. unfold line_of in Ek3. injection Ek3 as Hk3s Hk3z Hk3f.
  assert (HkL : keep ∉ l1).
  { destruct P as [|p P]; cbn in Hkeep; injection Hkeep as <-; [exact HrL|].
    intros Hin. apply (HLP _ Hin). now left. }
  assert (HkR : keep ∉ l2).
  { destruct P as [|p P]; cbn in Hkeep; injection Hkeep as <-; [exact HrR|].
    intros Hin. apply (H12 p).
    - apply elem_of_app. right. now left.
    - apply elem_of_app. now right. }
  (* the block that remains *)
  assert (Hline : ∃ bk, h !! keep = Some bk
                        ∧ line_of bk3
                          = (start bk, sum_sizes (view h (P ++ r :: N)), true)).
  { destruct P as [|p [|? ?]]; [| |simpl in HP; lia];
      cbn in Hkeep; injection Hkeep as <-.
    - exists b. split; [exact E|]. unfold line_of.
      rewrite Hk3s, Hk3z, Hk3f.
      rewrite E2 in Ek2. injection Ek2 as <-. cbn [app].
      rewrite (sum_sizes_view_cons _ _ _ _ E2), (sum_sizes_view_cons _ _ _ _ E).
      cbn. rewrite Hs2, Hz2, Hf2. f_equal. f_equal. lia.
    - assert (Hpr : p ≠ r) by (intros ->; apply HrP; now left).
      destruct (line_frame_lookup h h2 p bk2 (Hframe12 p Hpr) Ek2)
        as (bp & Ep & Hl).
      unfold line_of in Hl. injection Hl as Hsp Hzp Hfp.
      exists bp. split; [exact Ep|]. unfold line_of.
      rewrite Hk3s, Hk3z, Hk3f. cbn [app].
      rewrite (sum_sizes_view_cons _ _ _ _ Ek2), (sum_sizes_view_cons _ _ _ _ E2).
      rewrite (sum_sizes_view_cons _ _ _ _ Ep), (sum_sizes_view_cons _ _ _ _ E).
      cbn. rewrite <- Hsp, <- Hzp, <- Hfp, Hz2.
      rewrite (Hfree p bp); [|now left|exact Ep].
      f_equal. f_equal. lia. }
  destruct Hline as (bk & Ek & Hline).
  exists h3, keep, bk.
  split.
  { unfold free_block, set_free.
    erewrite run_setattr by exact E. fold h1.
    erewrite run_bind by exact Hrun2. exact Hrun3. }
  split; [exact Hkeep|]. split; [exact Ek|]. split; [exact Hc3|]. split.
  - intros F HF. rewrite (print_memory_view a h3 _ F Hc3 HF). f_equal.
    rewrite (view_mid _ _ _ _ _ Ek3'), Hline.
    assert (Hframe : ∀ x, x ≠ keep → x ≠ r →
                          line_of <$> h3 !! x = line_of <$> h !! x).
    { intros x Hxk Hxr. rewrite Hframe3 by exact Hxk. now apply Hframe12. }
    f_equal; [|f_equal]; apply view_same; intros x Hx; apply Hframe;
      intros ->; done.
  - intros x Hx Hxk Hin. pose proof Hc3 as (_ & Hnd3 & _).
    apply elem_of_app in Hin as [Hin|Hin].
    + apply elem_of_app in Hx as [Hx|Hx]; [now apply (HLP x)|].
      apply elem_of_cons in Hx as [->|Hx]; [done|].
      apply (H12 x); [apply elem_of_app; now left|].
      apply elem_of_app. now left.
    + apply elem_of_cons in Hin as [->|Hin]; [done|].
      apply elem_of_app in Hx as [Hx|Hx].
      * apply (H12 x); [apply elem_of_app; now right|].
        apply elem_of_app. now right.
      * apply elem_of_cons in Hx as [->|Hx]; [done|].
        apply NoDup_app in Hnd2 as (_ & HNR & _). now apply (HNR x).
Qed.

(** C8 with both neighbours free: in [0,40) free, [40,70) used, [70,100) free
    the release of the middle block absorbs both. *)
Lemma coalescing_witness :
  ∃ h' keep bk,
    free_block 1 round3 = Ret tt h'
    ∧ head_or [0] (Some 1) = Some keep
    ∧ round3 !! keep = Some bk
    ∧ chain arena100 h' ([] ++ keep :: [])
    ∧ (∀ F, length ([] ++ keep :: []) < F →
            print_memory arena100 F h'
            = Ret (view round3 []
                   ++ (start bk, sum_sizes (view round3 ([0] ++ 1 :: [2])), true)
                   :: view round3 []) h')
    ∧ (∀ x, x ∈ [0] ++ 1 :: [2] → x ≠ keep → x ∉ [] ++ keep :: []).
Proof.
  eapply (coalescing arena100 round3 [] [0] 1 [2] []).
  - exact chain_round3.
  - reflexivity.
  - simpl. lia.
  - simpl. lia.
  - intros x bx Hx Ex.
    repeat (apply elem_of_cons in Hx as [->|Hx]);
      [..|now apply elem_of_nil in Hx];
      vm_compute in Ex; injection Ex as <-; reflexivity.
  - intros H. discriminate H.
  - intros H. discriminate H.
Defined.

(** * Further properties of the allocator *)

(** ** The block sequence is determined by the store *)

Lemma dlseg_unique h p l p' l' :
  dlseg h p l None → dlseg h p' l' None →
  head_or l None = head_or l' None → l = l'.
Proof.
  revert p p' l'. induction l as [|x l IH]; intros p p' l' Hs Hs' Hh.
  - destruct l'; [reflexivity|discriminate].
  - destruct l' as [|x' l']; [discriminate|]. injection Hh as <-.
    destruct Hs as (b & E & _ & Hn & Hs).
    destruct Hs' as (b' & E' & _ & Hn' & Hs').
    rewrite E in E'. injection E' as <-. f_equal.
    apply (IH (Some x) (Some x) l' Hs Hs'). congruence.
Qed.

Lemma chain_unique a h l l' : chain a h l → chain a h l' → l = l'.
Proof.
  intros (Hh & _ & Hs) (Hh' & _ & Hs').
  eapply dlseg_unique; eauto. congruence.
Qed.

Lemma tiles_le s v e : tiles s v e → (s <= e)%Z.
Proof.
  revert s. induction v as [|[[s' z] f] v IH]; intros s; simpl.
  - lia.
  - intros (-> & Hz & H). apply IH in H. lia.
Qed.

Lemma tiles_elem_bounds s v e s' z' f' :
  tiles s v e → (s', z', f') ∈ v →
  (s <= s')%Z ∧ (s' + z' <= e)%Z ∧ (0 < z')%Z.
Proof.
  revert s. induction v as [|[[s0 z0] f0] v IH]; intros s Ht Hin.
  - now apply elem_of_nil in Hin.
  - destruct Ht as (-> & Hz & Ht). pose proof (tiles_le _ _ _ Ht) as Hle.
    apply elem_of_cons in Hin as [Heq|Hin].
    + injection Heq as -> -> ->. lia.
    + destruct (IH _ Ht Hin) as (H1 & H2 & H3). lia.
Qed.

(** ** What the two operations do to a block sequence *)

Lemma first_fit_effect a h l sz fuel :
  chain a h l → length l < fuel →
  ((∀ r b, r ∈ l → h !! r = Some b → fits sz b = false)
   ∧ first_fit a fuel sz h = Ret None h)
  ∨ ∃ l1 r l2 b h' l',
      l = l1 ++ r :: l2 ∧ h !! r = Some b ∧ fits sz b = true
      ∧ (∀ x bx, x ∈ l1 → h !! x = Some bx → fits sz bx = false)
      ∧ first_fit a fuel sz h = Ret (Some r) h'
      ∧ chain a h' l'
      ∧ line_of <$> h' !! r = Some (start b, sz, false)
      ∧ (∀ x, x < length h → x ≠ r →
              line_of <$> h' !! x = line_of <$> h !! x)
      ∧ ((size b = sz ∧ l' = l1 ++ r :: l2)
         ∨ (size b ≠ sz ∧ l' = l1 ++ r :: length h :: l2
            ∧ line_of <$> h' !! length h
              = Some ((start b + sz)%Z, (size b - sz)%Z, true))).
Proof.
  intros Hc Hf. pose proof Hc as (_ & _ & Hs).
  destruct (first_fit_point h sz l)
    as [Hno|(l1 & r & l2 & b & -> & E & Hb & Hno)].
  { intros x Hx. eapply dlseg_lookup; eauto. }
  { left. split; [exact Hno|]. now apply (first_fit_none a h l). }
  right. exists l1, r, l2, b.
  assert (Hrun : first_fit a fuel sz h
                 = (x ← _allocate_block r sz; ret (Some x)) h).
  { eapply first_fit_found; eauto. rewrite length_app in Hf. lia. }
  pose proof (lookup_lt_Some _ _ _ E) as Hrlt.
  destruct (decide (size b = sz)) as [<-|Hne].
  - destruct (allocate_exact_chain _ _ _ _ _ _ Hc E) as [Hc' _].
    exists (<[r := with_free false b]> h), (l1 ++ r :: l2).
    split; [reflexivity|]. split; [exact E|]. split; [exact Hb|].
    split; [exact Hno|].
    split; [rewrite Hrun;
            now erewrite run_bind by (now apply allocate_block_exact)|].
    split; [exact Hc'|].
    split; [now rewrite list_lookup_insert_eq|].
    split; [|left; auto].
    intros x _ Hx. rewrite list_lookup_insert_ne; [done|]. congruence.
  - destruct (allocate_split_chain _ _ _ _ _ _ sz Hc E Hne)
      as (h' & Hrun' & Hc' & _ & Er & Enb & Hframe).
    exists h', (l1 ++ r :: length h :: l2).
    split; [reflexivity|]. split; [exact E|]. split; [exact Hb|].
    split; [exact Hno|].
    split; [rewrite Hrun; now erewrite run_bind by exact Hrun'|].
    split; [exact Hc'|]. split; [now rewrite Er|].
    split; [exact Hframe|]. right. split; [exact Hne|].
    split; [reflexivity|]. now rewrite Enb.
Qed.

(** The free neighbours of a block of the sequence. *)
Lemma chain_neighbours a h l1 r l2 :
  chain a h (l1 ++ r :: l2) →
  ∃ l1' P N l2',
    l1 = l1' ++ P ∧ l2 = N ++ l2'
    ∧ length P ≤ 1 ∧ length N ≤ 1
    ∧ (∀ x bx, x ∈ P ++ N → h !! x = Some bx → free bx = true)
    ∧ (P = [] → ∀ x bx, last l1' = Some x → h !! x = Some bx →
              free bx = false)
    ∧ (N = [] → ∀ x bx, head_or l2' None = Some x → h !! x = Some bx →
              free bx = false).
Proof.
  intros Hc. pose proof Hc as (_ & _ & Hs).
  assert (Hdef : ∀ x, x ∈ l1 ++ r :: l2 → is_Some (h !! x))
    by (intros x Hx; eapply dlseg_lookup; eauto).
  assert (HN : ∃ N l2', l2 = N ++ l2' ∧ length N ≤ 1
            ∧ (∀ x bx, x ∈ N → h !! x = Some bx → free bx = true)
            ∧ (N = [] → ∀ x bx, head_or l2' None = Some x →
                        h !! x = Some bx → free bx = false)).
  { destruct l2 as [|n l2].
    - exists [], []. repeat split; auto.
      + intros x bx Hx. now apply elem_of_nil in Hx.
      + intros _ x bx Hx. discriminate.
    - destruct (Hdef n) as [bn En].
      { apply elem_of_app. right. right. now left. }
      destruct (free bn) eqn:Hfn.
      + exists [n], l2. repeat split; auto.
        * intros x bx Hx Ex. apply list_elem_of_singleton in Hx as ->.
          congruence.
        * intros Hnil. discriminate.
      + exists [], (n :: l2). repeat split; auto.
        * intros x bx Hx. now apply elem_of_nil in Hx.
        * intros _ x bx [= <-] Ex. congruence. }
  assert (HP : ∃ l1' P, l1 = l1' ++ P ∧ length P ≤ 1
            ∧ (∀ x bx, x ∈ P → h !! x = Some bx → free bx = true)
            ∧ (P = [] → ∀ x bx, last l1' = Some x →
                        h !! x = Some bx → free bx = false)).
  { destruct l1 as [|p l1 _] using rev_ind.
    - exists [], []. repeat split; auto.
      + intros x bx Hx. now apply elem_of_nil in Hx.
      + intros _ x bx Hx. discriminate.
    - destruct (Hdef p) as [bp Ep].
      { apply elem_of_app. left. apply elem_of_app. right. now left. }
      destruct (free bp) eqn:Hfp.
      + exists l1, [p]. repeat split; auto.
        * intros x bx Hx Ex. apply list_elem_of_singleton in Hx as ->.
          congruence.
        * intros Hnil. discriminate.
      + exists (l1 ++ [p]), []. repeat split; auto.
        * now rewrite app_nil_r.
        * intros x bx Hx. now apply elem_of_nil in Hx.
        * intros _ x bx Hx Ex. rewrite last_snoc in Hx. congruence. }
  destruct HN as (N & l2' & -> & HlN & HfN & HuN).
  destruct HP as (l1' & P & -> & HlP & HfP & HuP).
  exists l1', P, N, l2'. repeat split; auto.
  intros x bx Hx. apply elem_of_app in Hx as [Hx|Hx]; eauto.
Qed.

(** [free_block r] with the free neighbours [P] and [N] of [r] named: which
    block remains, what it shows, and which blocks are left untouched. *)
Lemma free_block_effect a h l1 P r N l2 b :
  chain a h (l1 ++ P ++ r :: N ++ l2) → h !! r = Some b →
  length P ≤ 1 → length N ≤ 1 →
  (∀ x bx, x ∈ P ++ N → h !! x = Some bx → free bx = true) →
  (P = [] → ∀ x bx, last l1 = Some x → h !! x = Some bx → free bx = false) →
  (N = [] → ∀ x bx, head_or l2 None = Some x → h !! x = Some bx →
            free bx = false) →
  ∃ h' keep bk,
    free_block r h = Ret tt h'
    ∧ head_or P (Some r) = Some keep
    ∧ h !! keep = Some bk
    ∧ chain a h' (l1 ++ keep :: l2)
    ∧ line_of <$> h' !! keep
      = Some (start bk, sum_sizes (view h (P ++ r :: N)), true)
    ∧ (∀ x, x ≠ r → x ≠ keep → line_of <$> h' !! x = line_of <$> h !! x)
    ∧ view h' (l1 ++ keep :: l2)
      = view h l1 ++ (start bk, sum_sizes (view h (P ++ r :: N)), true)
          :: view h l2.
Proof.
  intros Hc E HP HN Hfree HusedP HusedN.
  pose proof Hc as (_ & Hnd & _).
  rewrite app_assoc in Hc, Hnd.
  destruct (NoDup_mid _ _ _ Hnd) as (Hr1 & Hr2 & Hnd1 & Hnd2 & H12).
  apply not_elem_of_app in Hr1 as [HrL HrP].
  apply not_elem_of_app in Hr2 as [HrN HrR].
  apply NoDup_app in Hnd1 as (HndL & HLP & HndP).
  pose proof (lookup_lt_Some _ _ _ E) as Hrlt.
  set (h1 := <[r := with_free true b]> h).
  assert (E1 : h1 !! r = Some (with_free true b))
    by (now apply list_lookup_insert_eq).
  assert (Hsame1 : ∀ x, x ≠ r → h1 !! x = h !! x)
    by (intros x Hx; apply list_lookup_insert_ne; congruence).
  destruct (chain_update a h (l1 ++ P) r (N ++ l2) b (with_free true b)
              Hc E eq_refl eq_refl) as [Hc1 _]. fold h1 in Hc1.
  destruct (absorb_next_spec a h1 (l1 ++ P) r N l2 _ Hc1 E1 HN)
    as (h2 & Hrun2 & Hc2 & Er2 & Hframe2).
  { intros x bx Hx Ex. rewrite Hsame1 in Ex by (intros ->; done).
    apply (Hfree x); [apply elem_of_app; now right|exact Ex]. }
  { intros -> x bx Hx Ex. rewrite Hsame1 in Ex.
    - now apply (HusedN eq_refl x).
    - intros ->. apply HrR. destruct l2; [discriminate|].
      injection Hx as ->. now left. }
  cbn [start size free with_free] in Er2.
  assert (HvN : view h1 N = view h N).
  { apply view_same. intros x Hx. rewrite Hsame1; [done|]. now intros ->. }
  rewrite HvN in Er2.
  destruct (h2 !! r) as [b2|] eqn:E2; [|discriminate].
  cbn in Er2. unfold line_of in Er2. injection Er2 as Hs2 Hz2 Hf2.
  assert (Hframe12 : ∀ x, x ≠ r → line_of <$> h2 !! x = line_of <$> h !! x).
  { intros x Hx. rewrite Hframe2 by exact Hx. now rewrite Hsame1. }
  rewrite <- app_assoc in Hc2.
  destruct (absorb_into_prev_spec a h2 l1 P r l2 b2 Hc2 E2 HP)
    as (h3 & keep & bk2 & Hrun3 & Hkeep & Ek2 & Hc3 & Ek3 & Hframe3).
  { intros x bx Hx Ex.
    destruct (line_frame_lookup h h2 x bx) as (bx0 & Ex0 & Hl); auto.
    { apply Hframe12. intros ->. done. }
    unfold line_of in Hl. injection Hl as _ _ <-.
    apply (Hfree x); [apply elem_of_app; now left|exact Ex0]. }
  { intros -> x bx Hx Ex.
    destruct (line_frame_lookup h h2 x bx) as (bx0 & Ex0 & Hl); auto.
    { apply Hframe12. intros ->. apply HrL.
      apply list_elem_of_lookup. exists (pred (length l1)).
      now rewrite <- last_lookup. }
    unfold line_of in Hl. injection Hl as _ _ <-.
    now apply (HusedP eq_refl x). }
  destruct (h3 !! keep) as [bk3|] eqn:Ek3'; [|discriminate].
  cbn in Ek3. unfold line_of in Ek3. injection Ek3 as Hk3s Hk3z Hk3f.
  assert (HkL : keep ∉ l1).
  { destruct P as [|p P]; cbn in Hkeep; injection Hkeep as <-; [exact HrL|].
    intros Hin. apply (HLP _ Hin). now left. }
  assert (HkR : keep ∉ l2).
  { destruct P as [|p P]; cbn in Hkeep; injection Hkeep as <-; [exact HrR|].
    intros Hin. apply (H12 p).
    - apply elem_of_app. right. now left.
    - apply elem_of_app. now right. }
  assert (Hline : ∃ bk, h !! keep = Some bk
                        ∧ line_of bk3
                          = (start bk, sum_sizes (view h (P ++ r :: N)), true)).
  { destruct P as [|p [|? ?]]; [| |simpl in HP; lia];
      cbn in Hkeep; injection Hkeep as <-.
    - exists b. split; [exact E|]. unfold line_of.
      rewrite Hk3s, Hk3z, Hk3f.
      rewrite E2 in Ek2. injection Ek2 as <-. cbn [app].
      rewrite (sum_sizes_view_cons _ _ _ _ E2), (sum_sizes_view_cons _ _ _ _ E).
      cbn. rewrite Hs2, Hz2, Hf2. f_equal. f_equal. lia.
    - assert (Hpr : p ≠ r) by (intros ->; apply HrP; now left).
      destruct (line_frame_lookup h h2 p bk2 (Hframe12 p Hpr) Ek2)
        as (bp & Ep & Hl).
      unfold line_of in Hl. injection Hl as Hsp Hzp Hfp.
      exists bp. split; [exact Ep|]. unfold line_of.
      rewrite Hk3s, Hk3z, Hk3f. cbn [app].
      rewrite (sum_sizes_view_cons _ _ _ _ Ek2), (sum_sizes_view_cons _ _ _ _ E2).
      rewrite (sum_sizes_view_cons _ _ _ _ Ep), (sum_sizes_view_cons _ _ _ _ E).
      cbn. rewrite <- Hsp, <- Hzp, <- Hfp, Hz2.
      rewrite (Hfree p bp); [|now left|exact Ep].
      f_equal. f_equal. lia. }
  destruct Hline as (bk & Ek & Hline).
  assert (Hframe : ∀ x, x ≠ r → x ≠ keep →
                        line_of <$> h3 !! x = line_of <$> h !! x).
  { intros x Hxr Hxk. rewrite Hframe3 by exact Hxk. now apply Hframe12. }
  exists h3, keep, bk.
  split.
  { unfold free_block, set_free.
    erewrite run_setattr by exact E. fold h1.
    erewrite run_bind by exact Hrun2. exact Hrun3. }
  split; [exact Hkeep|]. split; [exact Ek|]. split; [exact Hc3|].
  split; [rewrite Ek3'; cbn; now rewrite Hline|]. split; [exact Hframe|].
  rewrite (view_mid _ _ _ _ _ Ek3'), Hline.
  f_equal; [|f_equal]; apply view_same; intros x Hx; apply Hframe;
    intros ->; done.
Qed.

Lemma is_used_line (h : heap) x :
  is_used h x ↔ ∃ s z, line_of <$> h !! x = Some (s, z, false).
Proof.
  split.
  - intros (b & E & Hf). exists (start b), (size b). rewrite E. cbn.
    unfold line_of. now rewrite Hf.
  - intros (s & z & Hl). destruct (h !! x) as [b|] eqn:E; [|discriminate].
    cbn in Hl. unfold line_of in Hl. exists b. split; congruence.
Qed.

Lemma first_fit_step a h l outstanding fuel sz res h' :
  inv a h l outstanding → first_fit a fuel sz h = Ret res h' →
  (res = None ∧ h' = h
   ∧ ∀ r b, r ∈ l → h !! r = Some b → fits sz b = false)
  ∨ ∃ r l',
      res = Some r ∧ chain a h' l' ∧ length l' ≤ S (length l)
      ∧ (r ∉ outstanding) ∧ r ∈ l'
      ∧ line_of <$> h' !! r = Some (from_option start 0%Z (h !! r), sz, false)
      ∧ (∀ x, x ∈ outstanding →
              x ∈ l' ∧ line_of <$> h' !! x = line_of <$> h !! x)
      ∧ (∀ x, x ∈ l' → is_used h' x → x = r ∨ (x ∈ l ∧ is_used h x)).
Proof.
  intros (Hc & _ & _ & _ & Hout) Hrun.
  apply first_fit_mono with (fuel' := fuel + S (length l)) in Hrun; [|lia].
  destruct (first_fit_effect a h l sz (fuel + S (length l)) Hc)
    as [[Hno Hnone]
       |(l1 & r & l2 & b & h0 & l' & -> & E & Hb & Hno & Hsome & Hc' & Er
         & Hframe & Hcases)]; [lia| |].
  { left. rewrite Hnone in Hrun. injection Hrun as <- <-. auto. }
  right. rewrite Hsome in Hrun. injection Hrun as <- <-.
  unfold fits in Hb. apply andb_true_iff in Hb as [Hf _].
  assert (Hlt : ∀ x, x ∈ l1 ++ r :: l2 → x < length h)
    by (intros x; apply (chain_lt _ _ _ _ Hc)).
  assert (Hfresh : r ∉ outstanding).
  { intros Hin. destruct (Hout r Hin) as [_ (b' & E' & Hf')]. congruence. }
  assert (Hsub : ∀ x, x ∈ l1 ++ r :: l2 → x ∈ l').
  { intros x Hx. destruct Hcases as [(_ & ->)|(_ & -> & _)]; [exact Hx|].
    apply elem_of_app in Hx as [Hx|Hx]; apply elem_of_app; [now left|right].
    apply elem_of_cons in Hx as [->|Hx]; [now left|now do 2 right]. }
  exists r, l'. split; [reflexivity|]. split; [exact Hc'|].
  split.
  { destruct Hcases as [(_ & ->)|(_ & -> & _)];
      rewrite !length_app; simpl; lia. }
  split; [exact Hfresh|].
  split; [apply Hsub, elem_of_app; right; now left|].
  split; [now rewrite E|]. split.
  - intros x Hx. destruct (Hout x Hx) as [Hxl Hux]. split; [now apply Hsub|].
    apply Hframe; [now apply Hlt|]. intros ->. done.
  - intros x Hx Hux. destruct (decide (x = r)) as [->|Hxr]; [now left|right].
    assert (Hxl : x ∈ l1 ++ r :: l2).
    { destruct Hcases as [(_ & ->)|(_ & -> & Enb)]; [exact Hx|].
      apply elem_of_app in Hx as [Hx|Hx]; apply elem_of_app; [now left|right].
      apply elem_of_cons in Hx as [->|Hx]; [now left|].
      apply elem_of_cons in Hx as [->|Hx]; [|now right].
      apply is_used_line in Hux as (s & z & Hl). congruence. }
    split; [exact Hxl|]. eapply is_used_frame; [|exact Hux].
    symmetry. apply Hframe; [now apply Hlt|exact Hxr].
Qed.

Lemma free_block_step a h l outstanding r :
  inv a h l outstanding → r ∈ outstanding →
  ∃ h' l',
    free_block r h = Ret tt h' ∧ chain a h' l' ∧ length l' ≤ length l
    ∧ (∀ x, x ∈ outstanding → x ≠ r →
            x ∈ l' ∧ line_of <$> h' !! x = line_of <$> h !! x)
    ∧ (∀ x, x ∈ l' → is_used h' x → x ≠ r ∧ x ∈ l ∧ is_used h x).
Proof.
  intros (Hc & _ & _ & _ & Hout) Hr.
  destruct (Hout r Hr) as [Hrl (b & E & Hf)].
  apply list_elem_of_split in Hrl as (l1 & l2 & ->).
  destruct (chain_neighbours _ _ _ _ _ Hc)
    as (l1' & P & N & l2' & -> & -> & HP & HN & Hfree & HuP & HuN).
  rewrite <- app_assoc in Hc.
  destruct (free_block_effect a h l1' P r N l2' b Hc E HP HN Hfree HuP HuN)
    as (h' & keep & bk & Hrun & Hkeep & Ek & Hc' & Ek' & Hframe & _).
  pose proof Hc as (_ & Hnd & _). rewrite app_assoc in Hnd.
  destruct (NoDup_mid _ _ _ Hnd) as (Hr1 & Hr2 & _).
  apply not_elem_of_app in Hr1 as [HrL HrP].
  apply not_elem_of_app in Hr2 as [HrN HrR].
  assert (Hkfree : ∀ x, is_used h x → x ≠ r → x ≠ keep).
  { intros x (bx & Ex & Hfx) Hxr ->.
    destruct P as [|p P]; cbn in Hkeep; injection Hkeep as <-; [done|].
    rewrite (Hfree p bx) in Hfx; [discriminate| |exact Ex].
    apply elem_of_app. left. now left. }
  assert (Hsub : ∀ x, x ∈ l1' ++ keep :: l2' →
                      x = keep ∨ (x ≠ r ∧ x ≠ keep
                                  ∧ x ∈ (l1' ++ P) ++ r :: N ++ l2')).
  { intros x Hx. destruct (decide (x = keep)) as [->|Hxk]; [now left|right].
    apply elem_of_app in Hx as [Hx|Hx].
    - split; [intros ->; done|]. split; [exact Hxk|].
      apply elem_of_app. left. apply elem_of_app. now left.
    - apply elem_of_cons in Hx as [->|Hx]; [done|].
      split; [intros ->; done|]. split; [exact Hxk|].
      apply elem_of_app. right. right. apply elem_of_app. now right. }
  exists h', (l1' ++ keep :: l2').
  split; [exact Hrun|]. split; [exact Hc'|]. split.
  { rewrite !length_app. simpl. rewrite !length_app. lia. }
  split.
  - intros x Hx Hxr. destruct (Hout x Hx) as [Hxl Hux].
    pose proof (Hkfree x Hux Hxr) as Hxk. split; [|now apply Hframe].
    apply elem_of_app in Hxl as [Hxl|Hxl].
    + apply elem_of_app in Hxl as [Hxl|Hxl]; [apply elem_of_app; now left|].
      destruct Hux as (bx & Ex & Hfx).
      rewrite (Hfree x bx) in Hfx; [discriminate| |exact Ex].
      apply elem_of_app. now left.
    + apply elem_of_cons in Hxl as [->|Hxl]; [done|].
      apply elem_of_app in Hxl as [Hxl|Hxl].
      * destruct Hux as (bx & Ex & Hfx).
        rewrite (Hfree x bx) in Hfx; [discriminate| |exact Ex].
        apply elem_of_app. now right.
      * apply elem_of_app. right. now right.
  - intros x Hx Hux. destruct (Hsub x Hx) as [->|(Hxr & Hxk & Hxl)].
    + apply is_used_line in Hux as (s & z & Hl). congruence.
    + split; [exact Hxr|]. split; [exact Hxl|].
      eapply is_used_frame; [|exact Hux]. symmetry. now apply Hframe.
Qed.

Lemma list_remove_first_elem_of r l x :
  x ∈ l → x ≠ r → x ∈ list_remove_first r l.
Proof.
  induction l as [|y l IH]; simpl; intros Hx Hxr.
  - now apply elem_of_nil in Hx.
  - destruct (decide (y = r)) as [->|Hy];
      apply elem_of_cons in Hx as [->|Hx]; try done.
    + now left.
    + right. auto.
Qed.

(** The driver holds every used block of the sequence. *)
Lemma reach_exact a h outstanding :
  reach a h outstanding →
  ∃ l, inv a h l outstanding
       ∧ ∀ x, x ∈ l → is_used h x → x ∈ outstanding.
Proof.
  induction 1 as [h0 h Hpos Hrun
                 |h outstanding fuel sz r h' Hreach (l & IH & IHu) Hsz Hrun
                 |h outstanding fuel sz h' Hreach (l & IH & IHu) Hsz Hrun
                 |h outstanding r h' Hreach (l & IH & IHu) Hr Hrun].
  - exists [head a]. split; [eapply inv_init; eauto|].
    intros x Hx (b & E & Hf). apply list_elem_of_singleton in Hx as ->.
    unfold init in Hrun. rewrite run_new in Hrun. injection Hrun as Ha <-.
    rewrite <- Ha in E. cbn [head] in E.
    rewrite list_lookup_middle in E by reflexivity.
    injection E as <-. discriminate.
  - assert (Hreach' : reach a h' (outstanding ++ [r]))
      by (eapply reach_alloc; eauto).
    destruct (reach_inv _ _ _ Hreach') as [l' Hinv']. exists l'.
    split; [exact Hinv'|].
    destruct (first_fit_step a h l outstanding fuel sz _ h' IH Hrun)
      as [(? & _)|(r0 & l0 & [= <-] & Hc0 & _ & _ & _ & _ & _ & Hu0)];
      [discriminate|].
    destruct Hinv' as (Hc' & _). rewrite (chain_unique _ _ _ _ Hc' Hc0).
    intros x Hx Hux. apply elem_of_app.
    destruct (Hu0 x Hx Hux) as [->|[Hxl Hux0]]; [right; now left|left; auto].
  - destruct (first_fit_step a h l outstanding fuel sz _ h' IH Hrun)
      as [(_ & -> & _)|(r0 & l0 & ? & _)]; [|discriminate].
    exists l. auto.
  - assert (Hreach' : reach a h' (list_remove_first r outstanding))
      by (eapply reach_free; eauto).
    destruct (reach_inv _ _ _ Hreach') as [l' Hinv']. exists l'.
    split; [exact Hinv'|].
    destruct (free_block_step a h l outstanding r IH Hr)
      as (h0 & l0 & Hrun0 & Hc0 & _ & _ & Hu0).
    rewrite Hrun0 in Hrun. injection Hrun as <-.
    destruct Hinv' as (Hc' & _). rewrite (chain_unique _ _ _ _ Hc' Hc0).
    intros x Hx Hux. destruct (Hu0 x Hx Hux) as (Hxr & Hxl & Hux0).
    apply list_remove_first_elem_of; auto.
Qed.

(** ** Handles *)

Lemma reach_round2 : reach arena100 round2 [0; 1].
Proof.
  assert (R0 : reach arena100 round0 [])
    by (apply (reach_init arena100 [] round0); reflexivity).
  assert (R1 : reach arena100 round1 ([] ++ [0]))
    by (apply (reach_alloc arena100 round0 [] 10 40 0 round1 R0); reflexivity).
  apply (reach_alloc arena100 round1 [0] 10 30 1 round2 R1); reflexivity.
Defined.

(** The handles the driver holds are distinct used blocks inside
    [0, total_memory), of positive size, and no two of them overlap. *)
Theorem outstanding_disjoint a h outstanding :
  reach a h outstanding →
  NoDup outstanding
  ∧ (∀ x, x ∈ outstanding →
          ∃ b, h !! x = Some b ∧ free b = false
               ∧ (0 <= start b)%Z ∧ (0 < size b)%Z
               ∧ (start b + size b <= total_memory a)%Z)
  ∧ (∀ x y bx by_, x ∈ outstanding → y ∈ outstanding → x ≠ y →
       h !! x = Some bx → h !! y = Some by_ →
       (start bx + size bx <= start by_)%Z
       ∨ (start by_ + size by_ <= start bx)%Z).
Proof.
  intros Hreach.
  destruct (reach_inv _ _ _ Hreach) as (l & Hc & Ht & _ & Hnd & Hout).
  split; [exact Hnd|]. split.
  - intros x Hx. destruct (Hout x Hx) as [Hxl (b & E & Hf)].
    exists b. split; [exact E|]. split; [exact Hf|].
    pose proof (view_elem_of _ _ _ _ Hxl E) as Hin.
    destruct (tiles_elem_bounds _ _ _ _ _ _ Ht Hin) as (H1 & H2 & H3). auto.
  - intros x y bx by_ Hx Hy Hxy Ex Ey.
    destruct (Hout x Hx) as [Hxl _]. destruct (Hout y Hy) as [Hyl _].
    apply list_elem_of_split in Hxl as (l1 & l2 & ->).
    rewrite (view_mid _ _ _ _ _ Ex) in Ht. unfold line_of in Ht.
    apply tiles_mid in Ht as (Ht1 & _ & Ht2).
    apply elem_of_app in Hyl as [Hyl|Hyl].
    + right. pose proof (view_elem_of _ _ _ _ Hyl Ey) as Hin.
      destruct (tiles_elem_bounds _ _ _ _ _ _ Ht1 Hin) as (_ & H2 & _). exact H2.
    + apply elem_of_cons in Hyl as [->|Hyl]; [done|]. left.
      pose proof (view_elem_of _ _ _ _ Hyl Ey) as Hin.
      destruct (tiles_elem_bounds _ _ _ _ _ _ Ht2 Hin) as (H1 & _). exact H1.
Qed.

Lemma outstanding_disjoint_witness :
  NoDup [0; 1]
  ∧ (∀ x, x ∈ [0; 1] →
          ∃ b, round2 !! x = Some b ∧ free b = false
               ∧ (0 <= start b)%Z ∧ (0 < size b)%Z
               ∧ (start b + size b <= total_memory arena100)%Z)
  ∧ (∀ x y bx by_, x ∈ [0; 1] → y ∈ [0; 1] → x ≠ y →
       round2 !! x = Some bx → round2 !! y = Some by_ →
       (start bx + size bx <= start by_)%Z
       ∨ (start by_ + size by_ <= start bx)%Z).
Proof. apply (outstanding_disjoint arena100 round2 [0; 1]), reach_round2. Defined.

(** While the driver holds a handle, neither an allocation nor the release
    of another handle changes the start, the size or the used state of its
    block. *)
Theorem handles_stable a h outstanding :
  reach a h outstanding →
  (∀ fuel sz res h', first_fit a fuel sz h = Ret res h' →
     ∀ x, x ∈ outstanding → line_of <$> h' !! x = line_of <$> h !! x)
  ∧ (∀ r h', r ∈ outstanding → free_block r h = Ret tt h' →
       ∀ x, x ∈ outstanding → x ≠ r →
            line_of <$> h' !! x = line_of <$> h !! x).
Proof.
  intros Hreach. destruct (reach_inv _ _ _ Hreach) as [l Hinv]. split.
  - intros fuel sz res h' Hrun x Hx.
    destruct (first_fit_step a h l outstanding fuel sz res h' Hinv Hrun)
      as [(_ & -> & _)|(r & l' & _ & _ & _ & _ & _ & _ & Hst & _)];
      [reflexivity|]. now apply Hst.
  - intros r h' Hr Hrun x Hx Hxr.
    destruct (free_block_step a h l outstanding r Hinv Hr)
      as (h0 & l' & Hrun0 & _ & _ & Hst & _).
    rewrite Hrun0 in Hrun. injection Hrun as <-. now apply Hst.
Qed.

Lemma handles_stable_witness :
  (∀ fuel sz res h', first_fit arena100 fuel sz round2 = Ret res h' →
     ∀ x, x ∈ [0; 1] → line_of <$> h' !! x = line_of <$> round2 !! x)
  ∧ (∀ r h', r ∈ [0; 1] → free_block r round2 = Ret tt h' →
       ∀ x, x ∈ [0; 1] → x ≠ r →
            line_of <$> h' !! x = line_of <$> round2 !! x).
Proof. apply (handles_stable arena100 round2 [0; 1]), reach_round2. Defined.

(** ** Capacity *)

Lemma used_b_is_used h x : used_b h x = true ↔ is_used h x.
Proof.
  unfold used_b, is_used. split.
  - destruct (h !! x) as [b|]; [|discriminate].
    intros Hb. exists b. split; [reflexivity|]. now destruct (free b).
  - intros (b & -> & ->). reflexivity.
Qed.

Lemma held_permutation h l k : l ≡ₚ k → held h l = held h k.
Proof.
  induction 1 as [|x l k _ IH|x y l|l k m _ IH1 _ IH2]; simpl.
  - reflexivity.
  - now rewrite IH.
  - lia.
  - congruence.
Qed.

Lemma sum_sizes_split h l :
  sum_sizes (view h l)
  = (free_capacity (view h l)
     + held h (filter (fun x => used_b h x = true) l))%Z.
Proof.
  induction l as [|x l IH]; [reflexivity|].
  rewrite filter_cons.
  change (view h (x :: l))
    with (from_option line_of (0%Z, 0%Z, false) (h !! x) :: view h l).
  destruct (decide (used_b h x = true)) as [Hu|Hu]; unfold used_b in Hu;
    destruct (h !! x) as [b|] eqn:E; cbn [from_option]; unfold line_of;
    cbn [sum_sizes free_capacity held foldr];
    fold (sum_sizes (view h l)); fold (free_capacity (view h l));
    rewrite ?E; cbn [from_option].
  - destruct (free b); [discriminate|].
    change (foldr _ 0%Z ?k) with (held h k). lia.
  - discriminate.
  - destruct (free b); [lia|]. now destruct Hu.
  - lia.
Qed.

(** The free capacity that [print_memory] shows and the sizes of the blocks
    the driver holds add up to [total_memory]. *)
Theorem capacity_accounting a h outstanding :
  reach a h outstanding →
  ∃ v, (∀ fuel, length v < fuel → print_memory a fuel h = Ret v h)
       ∧ (free_capacity v + held h outstanding)%Z = total_memory a.
Proof.
  intros Hreach.
  destruct (reach_exact _ _ _ Hreach) as (l & (Hc & Ht & _ & Hnd & Hout) & Hu).
  exists (view h l). split.
  - intros fuel Hf. rewrite view_length in Hf.
    now apply print_memory_view with (l := l).
  - apply tiles_sum in Ht. rewrite sum_sizes_split in Ht.
    rewrite (held_permutation h _ outstanding) in Ht; [lia|].
    pose proof Hc as (_ & Hndl & _).
    apply NoDup_Permutation; [now apply NoDup_filter|exact Hnd|].
    intros x. rewrite list_elem_of_filter, used_b_is_used. split.
    + intros [Hux Hx]. now apply Hu.
    + intros Hx. destruct (Hout x Hx). auto.
Qed.

Lemma capacity_accounting_witness :
  ∃ v, (∀ fuel, length v < fuel
                → print_memory arena100 fuel round2 = Ret v round2)
       ∧ (free_capacity v + held round2 [0%nat; 1%nat])%Z
         = total_memory arena100.
Proof. apply (capacity_accounting arena100 round2 [0; 1]), reach_round2. Defined.

Lemma reach_merged : reach arena100 merged [].
Proof.
  apply (reach_free arena100 round3 [1] 1 merged reach_round3);
    [apply list_elem_of_here|reflexivity].
Defined.

(** Once the driver has released every handle it obtained, the sequence is
    again one free block that spans [0, total_memory). *)
Theorem release_all_restores a h :
  reach a h [] →
  ∀ fuel, 1 < fuel → print_memory a fuel h = Ret [(0%Z, total_memory a, true)] h.
Proof.
  intros Hreach fuel Hf.
  destruct (reach_exact _ _ _ Hreach) as (l & (Hc & Ht & Hun & _) & Hu).
  pose proof Hc as (_ & _ & Hs).
  assert (Hfree : ∀ s z f, (s, z, f) ∈ view h l → f = true).
  { intros s z f Hin.
    destruct (view_elem_of_inv _ _ _ _ _ Hs Hin) as (x & b & Hx & E & Hln).
    injection Hln as _ _ ->. destruct (free b) eqn:Hfb; [reflexivity|].
    exfalso. eapply elem_of_nil, (Hu x Hx). exists b. auto. }
  assert (Hv : view h l = [(0%Z, total_memory a, true)]).
  { pose proof (chain_nonempty _ _ _ Hc) as Hne.
    destruct (view h l) as [|[[s z] f] [|[[s' z'] f'] v]] eqn:Ev.
    - destruct l; [done|discriminate].
    - destruct Ht as (-> & _ & Ht). simpl in Ht.
      rewrite (Hfree 0%Z z f) by now left. f_equal. f_equal. f_equal. lia.
    - destruct Hun as (_ & Hun & _). exfalso. apply Hun. split.
      + apply (Hfree s z f). now left.
      + apply (Hfree s' z' f'). right. now left. }
  rewrite <- Hv. apply print_memory_view with (l := l); [exact Hc|].
  rewrite <- (view_length h l), Hv. exact Hf.
Qed.

Lemma release_all_restores_witness :
  print_memory arena100 2 merged
  = Ret [(0%Z, total_memory arena100, true)] merged.
Proof.
  apply (release_all_restores arena100 merged reach_merged 2). lia.
Defined.

(** ** Allocation followed by release *)

(** In a sequence without two adjacent free blocks, the neighbours of a free
    block are used. *)
Lemma free_block_neighbours_used a h l1 r l2 b :
  chain a h (l1 ++ r :: l2) → unmerged false (view h (l1 ++ r :: l2)) →
  h !! r = Some b → free b = true →
  (∀ x bx, last l1 = Some x → h !! x = Some bx → free bx = false)
  ∧ (∀ x bx, head_or l2 None = Some x → h !! x = Some bx → free bx = false).
Proof.
  intros Hc Hu E Hf. rewrite (view_mid _ _ _ _ _ E) in Hu.
  unfold line_of in Hu. apply unmerged_mid in Hu as (_ & HuL & Hu2).
  rewrite Hf in HuL, Hu2. split.
  - intros x bx Hx Ex. apply last_Some in Hx as [l1' ->].
    rewrite view_app in HuL. cbn [view map] in HuL. rewrite Ex in HuL.
    cbn [from_option] in HuL. unfold line_of in HuL.
    rewrite last_free_snoc in HuL.
    destruct (free bx); [|reflexivity]. now destruct HuL.
  - intros x bx Hx Ex. destruct l2 as [|y l2]; [discriminate|].
    injection Hx as ->. cbn [view map] in Hu2. rewrite Ex in Hu2.
    destruct Hu2 as [Hu2 _]. cbn in Hu2.
    destruct (free bx); [|reflexivity]. now destruct Hu2.
Qed.

(** An allocation followed at once by the release of its handle puts back
    what [print_memory] showed before the allocation. *)
Theorem allocate_release_round_trip a h outstanding fuel sz r h1 h2 :
  reach a h outstanding →
  first_fit a fuel sz h = Ret (Some r) h1 →
  free_block r h1 = Ret tt h2 →
  ∃ v, ∀ F, length v < F →
            print_memory a F h = Ret v h ∧ print_memory a F h2 = Ret v h2.
Proof.
  intros Hreach Hrun1 Hrun2.
  destruct (reach_inv _ _ _ Hreach) as (l & Hc & _ & Hu & _).
  apply first_fit_mono with (fuel' := fuel + S (length l)) in Hrun1; [|lia].
  destruct (first_fit_effect a h l sz (fuel + S (length l)) Hc)
    as [[_ Hnone]
       |(l1 & r0 & l2 & b & h0 & l' & -> & E & Hb & _ & Hsome & Hc1 & Er
         & Hframe & Hcases)]; [lia|congruence|].
  rewrite Hsome in Hrun1. injection Hrun1 as -> ->.
  unfold fits in Hb. apply andb_true_iff in Hb as [Hf _].
  destruct (free_block_neighbours_used _ _ _ _ _ _ Hc Hu E Hf) as [HuL HuR].
  pose proof Hc as (_ & Hnd & _).
  destruct (NoDup_mid _ _ _ Hnd) as (Hr1 & Hr2 & _).
  assert (Hlt : ∀ x, x ∈ l1 ++ r :: l2 → x < length h)
    by (intros x; apply (chain_lt _ _ _ _ Hc)).
  assert (Hfr1 : ∀ x, x ∈ l1 → line_of <$> h1 !! x = line_of <$> h !! x).
  { intros x Hx. apply Hframe; [apply Hlt, elem_of_app; now left|].
    intros ->. done. }
  assert (Hfr2 : ∀ x, x ∈ l2 → line_of <$> h1 !! x = line_of <$> h !! x).
  { intros x Hx. apply Hframe; [apply Hlt, elem_of_app; right; now right|].
    intros ->. done. }
  assert (HuL1 : ∀ x bx, last l1 = Some x → h1 !! x = Some bx →
                         free bx = false).
  { intros x bx Hx Ex.
    destruct (line_frame_lookup h h1 x bx) as (bx0 & Ex0 & Hl); auto.
    { apply Hfr1. apply last_Some in Hx as [l1' ->].
      apply elem_of_app. right. now left. }
    unfold line_of in Hl. injection Hl as _ _ <-. now apply (HuL x). }
  assert (HuR1 : ∀ x bx, head_or l2 None = Some x → h1 !! x = Some bx →
                         free bx = false).
  { intros x bx Hx Ex.
    destruct (line_frame_lookup h h1 x bx) as (bx0 & Ex0 & Hl); auto.
    { apply Hfr2. destruct l2; [discriminate|]. injection Hx as ->. now left. }
    unfold line_of in Hl. injection Hl as _ _ <-. now apply (HuR x). }
  destruct (h1 !! r) as [b1|] eqn:E1; [|discriminate].
  cbn in Er. unfold line_of in Er. injection Er as Hs1 Hz1 Hf1.
  assert (Hv : chain a h2 (l1 ++ r :: l2)
               ∧ view h2 (l1 ++ r :: l2) = view h (l1 ++ r :: l2)).
  { destruct Hcases as [(Hz & ->)|(Hz & -> & Enb)].
    - destruct (free_block_effect a h1 l1 [] r [] l2 b1 Hc1 E1
                  (Nat.le_0_l 1) (Nat.le_0_l 1))
        as (h' & keep & bk & Hrun & [= <-] & Ek & Hc2 & _ & _ & Hv).
      { intros x bx Hx. now apply elem_of_nil in Hx. }
      { intros _. exact HuL1. }
      { intros _. exact HuR1. }
      rewrite Hrun in Hrun2. injection Hrun2 as <-.
      split; [exact Hc2|]. rewrite Hv.
      rewrite E1 in Ek. injection Ek as <-. cbn [app].
      rewrite (sum_sizes_view_cons _ _ _ _ E1). cbn [view map sum_sizes foldr].
      rewrite (view_mid _ _ _ _ _ E). unfold line_of.
      rewrite Hs1, Hz1, Hf, <- Hz, Z.add_0_r.
      f_equal; [|f_equal]; now apply view_same.
    - destruct (h1 !! length h) as [bn|] eqn:En; [|discriminate].
      cbn in Enb. unfold line_of in Enb. injection Enb as Hsn Hzn Hfn.
      destruct (free_block_effect a h1 l1 [] r [length h] l2 b1 Hc1 E1
                  (Nat.le_0_l 1) (le_n 1))
        as (h' & keep & bk & Hrun & [= <-] & Ek & Hc2 & _ & _ & Hv).
      { intros x bx Hx Ex. apply list_elem_of_singleton in Hx as ->.
        congruence. }
      { intros _. exact HuL1. }
      { intros Hnil. discriminate Hnil. }
      rewrite Hrun in Hrun2. injection Hrun2 as <-.
      split; [exact Hc2|]. rewrite Hv.
      rewrite E1 in Ek. injection Ek as <-. cbn [app].
      rewrite (sum_sizes_view_cons _ _ _ _ E1), (sum_sizes_view_cons _ _ _ _ En).
      cbn [view map sum_sizes foldr].
      rewrite (view_mid _ _ _ _ _ E). unfold line_of.
      rewrite Hs1, Hz1, Hzn, Hf.
      replace (sz + (size b - sz + 0))%Z with (size b) by lia.
      f_equal; [|f_equal]; now apply view_same. }
  destruct Hv as (Hc2 & Hv).
  exists (view h (l1 ++ r :: l2)). intros F HF. rewrite view_length in HF.
  split; [now apply print_memory_view|].
  rewrite <- Hv. now apply print_memory_view.
Qed.

Lemma allocate_release_round_trip_witness :
  ∃ v, ∀ F, length v < F →
            print_memory arena100 F round2 = Ret v round2
            ∧ print_memory arena100 F
                (heap_of (free_block 2
                            (heap_of (first_fit arena100 10 12 round2))))
              = Ret v (heap_of (free_block 2
                                  (heap_of (first_fit arena100 10 12 round2)))).
Proof.
  apply (allocate_release_round_trip arena100 round2 [0; 1] 10 12 2
           (heap_of (first_fit arena100 10 12 round2))).
  - exact reach_round2.
  - reflexivity.
  - reflexivity.
Defined.

Lemma sum_sizes_app v1 v2 :
  sum_sizes (v1 ++ v2) = (sum_sizes v1 + sum_sizes v2)%Z.
Proof.
  induction v1 as [|[[s z] f] v1 IH]; simpl; [reflexivity|].
  rewrite IH. lia.
Qed.

Lemma sum_sizes_nonneg v :
  (∀ s z f, (s, z, f) ∈ v → (0 < z)%Z) → (0 <= sum_sizes v)%Z.
Proof.
  induction v as [|[[s z] f] v IH]; intros Hpos; simpl; [lia|].
  assert (0 < z)%Z by (apply (Hpos s z f); now left).
  assert (0 <= sum_sizes v)%Z; [|lia].
  apply IH. intros s' z' f' Hin. apply (Hpos s' z' f'). now right.
Qed.

(** After the release of a handle, a request of at most the size of its
    block succeeds. *)
Theorem release_makes_room a h outstanding r b h' sz :
  reach a h outstanding → r ∈ outstanding → h !! r = Some b →
  free_block r h = Ret tt h' → (sz <= size b)%Z →
  ∃ fuel r' h'', first_fit a fuel sz h' = Ret (Some r') h''.
Proof.
  intros Hreach Hr E Hrun Hsz.
  destruct (reach_inv _ _ _ Hreach) as (l & Hc & Ht & _ & _ & Hout).
  destruct (Hout r Hr) as [Hrl _].
  apply list_elem_of_split in Hrl as (l1 & l2 & ->).
  destruct (chain_neighbours _ _ _ _ _ Hc)
    as (l1' & P & N & l2' & -> & -> & HP & HN & Hfree & HuP & HuN).
  rewrite <- app_assoc in Hc, Ht.
  destruct (free_block_effect a h l1' P r N l2' b Hc E HP HN Hfree HuP HuN)
    as (h0 & keep & bk & Hrun0 & Hkeep & Ek & Hc' & Ek' & _).
  rewrite Hrun0 in Hrun. injection Hrun as ->.
  assert (Hpos : positive_sizes (view h (l1' ++ P ++ r :: N ++ l2')))
    by (eapply tiles_positive, Ht).
  assert (Hsum : (size b <= sum_sizes (view h (P ++ r :: N)))%Z).
  { rewrite view_app, sum_sizes_app, (sum_sizes_view_cons _ _ _ _ E).
    assert (0 <= sum_sizes (view h P))%Z.
    { apply sum_sizes_nonneg. intros s z f Hin. apply (Hpos s z f).
      rewrite !view_app. apply elem_of_app. right. apply elem_of_app. now left. }
    assert (0 <= sum_sizes (view h N))%Z; [|lia].
    apply sum_sizes_nonneg. intros s z f Hin. apply (Hpos s z f).
    rewrite !view_app. apply elem_of_app. right. apply elem_of_app. right.
    change (view h (r :: N ++ l2'))
      with (from_option line_of (0%Z, 0%Z, false) (h !! r) :: view h (N ++ l2')).
    right. rewrite view_app. apply elem_of_app. now left. }
  destruct (h' !! keep) as [bk'|] eqn:Ek''; [|discriminate].
  cbn in Ek'. unfold line_of in Ek'. injection Ek' as _ Hzk Hfk.
  exists (S (length (l1' ++ keep :: l2'))).
  destruct (first_fit_effect a h' (l1' ++ keep :: l2') sz
              (S (length (l1' ++ keep :: l2'))) Hc')
    as [[Hno _]|(_ & r' & _ & _ & h'' & _ & _ & _ & _ & _ & Hsome & _)];
    [lia| |eauto].
  exfalso.
  assert (Hk : keep ∈ l1' ++ keep :: l2') by (apply elem_of_app; right; now left).
  specialize (Hno keep bk' Hk Ek''). unfold fits in Hno.
  rewrite Hfk in Hno. simpl in Hno. apply Z.leb_gt in Hno. lia.
Qed.

Lemma release_makes_room_witness :
  ∃ fuel r' h'', first_fit arena100 fuel 40 round3 = Ret (Some r') h''.
Proof.
  eapply (release_makes_room arena100 round2 [0; 1] 0 _ round3 40).
  - exact reach_round2.
  - apply list_elem_of_here.
  - reflexivity.
  - reflexivity.
  - simpl. lia.
Defined.

(** ** What never writes to the store *)

Lemma getattr_inv {A} (f : Block → A) r (h : heap) x h' :
  getattr f r h = Ret x h' → h' = h.
Proof.
  unfold getattr. destruct (h !! r); [|discriminate]. now intros [= _ <-].
Qed.

Lemma print_memory_loop_read_only fuel :
  ∀ c h v h', print_memory_loop fuel c h = Ret v h' →
              h' = h ∧ length v < fuel.
Proof.
  induction fuel as [|fuel IH]; intros c h v h' H; [discriminate|].
  destruct c as [c|].
  - destruct (h !! c) as [b|] eqn:E.
    + assert (Heq : print_memory_loop (S fuel) (Some c) h
                    = (rest ← print_memory_loop fuel (next b);
                       ret ((start b, size b, free b) :: rest)) h)
        by (cbn [print_memory_loop]; run; reflexivity).
      rewrite Heq in H. unfold bind in H.
      destruct (print_memory_loop fuel (next b) h) as [rest h1| |] eqn:Hl;
        try discriminate.
      injection H as <- <-. destruct (IH _ _ _ _ Hl) as [-> Hlen].
      split; [reflexivity|]. simpl. lia.
    + cbn [print_memory_loop] in H. unfold bind, get_free, getattr in H.
      rewrite E in H. discriminate.
  - cbn in H. injection H as <- <-. split; [reflexivity|]. simpl. lia.
Qed.

Lemma first_fit_loop_none_read_only sz fuel :
  ∀ c h h', first_fit_loop fuel c sz h = Ret None h' → h' = h.
Proof.
  induction fuel as [|fuel IH]; intros c h h' H; [discriminate|].
  destruct c as [c|]; [|cbn in H; now injection H as <-].
  cbn [first_fit_loop] in H. unfold bind in H.
  destruct (get_free c h) as [f h1| |] eqn:E1; try discriminate.
  apply getattr_inv in E1 as ->.
  match type of H with
  | context [match ?m h with _ => _ end] =>
      destruct (m h) as [ok h2| |] eqn:E2
  end; try discriminate.
  assert (h2 = h) as ->.
  { destruct f.
    - unfold bind in E2. destruct (get_size c h) as [z h3| |] eqn:E3;
        try discriminate.
      apply getattr_inv in E3 as ->. now injection E2 as _ <-.
    - now injection E2 as _ <-. }
  destruct ok.
  - destruct (_allocate_block c sz h); discriminate.
  - destruct (get_next c h) as [nx h3| |] eqn:E3; try discriminate.
    apply getattr_inv in E3 as ->. now apply (IH _ _ _ H).
Qed.

(** On every store, also one that a stale release has damaged:
    [print_memory] returns the store as it got it, and so does a [first_fit]
    that finds no block. *)
Theorem read_only_paths a fuel h :
  (∀ v h', print_memory a fuel h = Ret v h' → h' = h ∧ length v < fuel)
  ∧ (∀ sz h', first_fit a fuel sz h = Ret None h' → h' = h).
Proof.
  split.
  - intros v h'. apply print_memory_loop_read_only.
  - intros sz h'. apply first_fit_loop_none_read_only.
Qed.

(** ** The simulation loop *)

Lemma randint_range lo hi k :
  (lo <= hi)%Z → (lo <= randint lo hi k <= hi)%Z.
Proof.
  intros Hle. unfold randint.
  pose proof (Z.mod_pos_bound (Z.of_nat k) (hi - lo + 1)). lia.
Qed.

Lemma list_remove_first_length r l :
  r ∈ l → S (length (list_remove_first r l)) = length l.
Proof.
  induction l as [|y l IH]; simpl; intros Hr.
  - now apply elem_of_nil in Hr.
  - destruct (decide (y = r)) as [->|Hy]; [reflexivity|].
    apply elem_of_cons in Hr as [->|Hr]; [done|]. simpl. now rewrite IH.
Qed.

Lemma choice_elem_of l k (h : heap) :
  l ≠ [] → ∃ r, choice l k h = Ret r h ∧ r ∈ l.
Proof.
  intros Hne. unfold choice.
  destruct (lookup_lt_is_Some_2 l (k mod length l)) as [r Hr].
  { apply Nat.mod_upper_bound. destruct l; [done|simpl; lia]. }
  exists r. rewrite Hr. split; [reflexivity|].
  eapply list_elem_of_lookup_2, Hr.
Qed.

Lemma iteration_ok a fuel d s h :
  sim_ok a h s → 52 ≤ fuel →
  ∃ s' h', iteration a fuel d s h = Ret s' h' ∧ sim_ok a h' s'.
Proof.
  intros (l & Hinv & Hreach & Hlen & Hatt & Hfc & Hcount) Hfuel.
  unfold iteration.
  destruct (draw_alloc d && (alloc_attempts s <? 50)) eqn:Hcond1.
  - apply andb_true_iff in Hcond1 as [Hd Hlt]. apply Nat.ltb_lt in Hlt.
    rewrite Hd. cbn [negb andb].
    pose proof (randint_range 5 50 (draw d) ltac:(lia)) as Hsz.
    set (sz := randint 5 50 (draw d)) in *.
    destruct (first_fit_inv a h l (allocated s) sz fuel Hinv)
      as [[_ Hnone]|(r & h' & l' & Hsome & Hinv')]; [lia|lia| |].
    + pose proof Hinv as (Hc & _).
      exists (mkSim (allocated s) (S (alloc_attempts s)) (free_count s)), h.
      split.
      * rewrite run_assoc. erewrite run_bind by exact Hnone.
        rewrite run_assoc.
        erewrite run_bind
          by (apply (print_memory_view a h l fuel Hc); lia).
        reflexivity.
      * exists l. cbn [allocated alloc_attempts free_count].
        split; [exact Hinv|]. split; [exact Hreach|]. repeat split; lia.
    + pose proof Hinv' as (Hc' & _).
      destruct (first_fit_step a h l (allocated s) fuel sz _ h' Hinv Hsome)
        as [(? & _)|(r0 & l0 & [= <-] & Hc0 & Hlen0 & _)]; [discriminate|].
      rewrite <- (chain_unique _ _ _ _ Hc' Hc0) in Hlen0.
      exists (mkSim (allocated s ++ [r]) (S (alloc_attempts s)) (free_count s)),
             h'.
      split.
      * rewrite run_assoc. erewrite run_bind by exact Hsome.
        rewrite run_assoc.
        erewrite run_bind
          by (apply (print_memory_view a h' l' fuel Hc'); lia).
        reflexivity.
      * exists l'. cbn [allocated alloc_attempts free_count].
        split; [exact Hinv'|]. split.
        { apply (reach_alloc a h (allocated s) fuel sz r h' Hreach); [lia|].
          exact Hsome. }
        rewrite length_app. simpl. repeat split; lia.
  - rewrite run_ret.
    destruct (negb (draw_alloc d) && (free_count s <? 30)
              && truthy (allocated s)) eqn:Hcond2.
    + apply andb_true_iff in Hcond2 as [Hcond2 Hne].
      apply andb_true_iff in Hcond2 as [_ Hlt]. apply Nat.ltb_lt in Hlt.
      assert (Hne' : allocated s ≠ []) by (destruct (allocated s); done).
      destruct (choice_elem_of (allocated s) (draw d) h Hne')
        as (r & Hchoice & Hr).
      destruct (free_block_inv a h l (allocated s) r Hinv Hr)
        as (h' & l' & Hrun & Hinv').
      pose proof Hinv' as (Hc' & _).
      destruct (free_block_step a h l (allocated s) r Hinv Hr)
        as (h0 & l0 & Hrun0 & Hc0 & Hlen0 & _).
      rewrite Hrun in Hrun0. injection Hrun0 as <-.
      rewrite <- (chain_unique _ _ _ _ Hc' Hc0) in Hlen0.
      exists (mkSim (list_remove_first r (allocated s)) (alloc_attempts s)
                    (S (free_count s))), h'.
      split.
      * erewrite run_bind by exact Hchoice.
        erewrite run_bind by exact Hrun.
        erewrite run_bind
          by (apply (print_memory_view a h' l' fuel Hc'); lia).
        reflexivity.
      * exists l'. cbn [allocated alloc_attempts free_count].
        split; [exact Hinv'|]. split.
        { apply (reach_free a h (allocated s) r h' Hreach Hr Hrun). }
        pose proof (list_remove_first_length r _ Hr).
        repeat split; lia.
    + exists s, h. split; [reflexivity|]. exists l. auto 10.
Qed.

Lemma simulation_loop_ok a fuel ds :
  52 ≤ fuel →
  ∀ s h, sim_ok a h s →
         ∃ s' h', simulation_loop a fuel ds s h = Ret s' h' ∧ sim_ok a h' s'.
Proof.
  intros Hfuel. induction ds as [|d ds IH]; intros s h Hok.
  - exists s, h. split; [reflexivity|exact Hok].
  - cbn [simulation_loop]. destruct (looping s).
    + destruct (iteration_ok a fuel d s h Hok Hfuel) as (s1 & h1 & Hrun & Hok1).
      destruct (IH s1 h1 Hok1) as (s' & h' & Hrun' & Hok').
      exists s', h'. split; [|exact Hok'].
      erewrite run_bind by exact Hrun. exact Hrun'.
    + exists s, h. split; [reflexivity|exact Hok].
Qed.

(** The simulation never raises and never runs a loop of the allocator for
    more than 51 rounds, whatever is drawn.  After any number of iterations
    the store and the list [allocated] are in a state reached by proper use,
    no more than 50 allocations were attempted and no more than 30 blocks
    released, and the loop only ends with exactly 50 and 30. *)
Theorem simulation_safe fuel ds h0 :
  52 ≤ fuel →
  ∃ a s h,
    simulation fuel ds h0 = Ret (a, s) h
    ∧ total_memory a = 1000%Z
    ∧ reach a h (allocated s)
    ∧ alloc_attempts s ≤ 50 ∧ free_count s ≤ 30
    ∧ free_count s + length (allocated s) ≤ alloc_attempts s
    ∧ (looping s = false → alloc_attempts s = 50 ∧ free_count s = 30).
Proof.
  intros Hfuel. unfold simulation.
  set (a := mkAllocator 1000 (length h0)).
  set (h1 := h0 ++ [mkBlock 0 1000 true None None]).
  assert (Hinit : init 1000 h0 = Ret a h1) by reflexivity.
  assert (Hok : sim_ok a h1 (mkSim [] 0 0)).
  { exists [head a]. cbn [allocated alloc_attempts free_count].
    split; [apply (inv_init 1000 h0 a h1); [lia|exact Hinit]|].
    split; [apply (reach_init a h0 h1); [reflexivity|exact Hinit]|].
    simpl. repeat split; lia. }
  destruct (simulation_loop_ok a fuel ds Hfuel _ _ Hok)
    as (s & h & Hrun & (l & _ & Hreach & _ & Hatt & Hfc & Hcount)).
  exists a, s, h. split.
  { erewrite run_bind by exact Hinit. erewrite run_bind by exact Hrun.
    reflexivity. }
  split; [reflexivity|]. split; [exact Hreach|].
  split; [exact Hatt|]. split; [exact Hfc|]. split; [exact Hcount|].
  unfold looping. intros Hloop. apply orb_false_iff in Hloop as [H1 H2].
  apply Nat.ltb_ge in H1, H2. lia.
Qed.

Lemma simulation_safe_witness :
  ∃ a s h,
    simulation 52 [mkDraws true 7; mkDraws true 30; mkDraws false 1] []
    = Ret (a, s) h
    ∧ total_memory a = 1000%Z
    ∧ reach a h (allocated s)
    ∧ alloc_attempts s ≤ 50 ∧ free_count s ≤ 30
    ∧ free_count s + length (allocated s) ≤ alloc_attempts s
    ∧ (looping s = false → alloc_attempts s = 50 ∧ free_count s = 30).
Proof.
  apply (simulation_safe 52
           [mkDraws true 7; mkDraws true 30; mkDraws false 1] []).
  lia.
Defined.

Lemma iteration_stalled a fuel d s h :
  allocated s = [] → alloc_attempts s = 50 →
  iteration a fuel d s h = Ret s h.
Proof.
  intros Hl Ha. unfold iteration. rewrite Ha.
  replace (50 <? 50) with false by reflexivity. rewrite andb_false_r.
  rewrite run_ret, Hl. cbn [truthy]. now rewrite andb_false_r.
Qed.

Lemma simulation_loop_stalled a fuel ds s h :
  allocated s = [] → alloc_attempts s = 50 →
  simulation_loop a fuel ds s h = Ret s h.
Proof.
  intros Hl Ha. induction ds as [|d ds IH]; [reflexivity|].
  cbn [simulation_loop]. destruct (looping s); [|reflexivity].
  erewrite run_bind by (now apply iteration_stalled). exact IH.
Qed.

(** The simulation can hang.  Once 50 allocations were attempted and the
    list [allocated] is empty, no iteration changes anything; when fewer
    than 30 blocks were released by then, the loop condition stays true for
    ever.  Such a state is reached when the first 50 draws are allocations
    of 50 units, of which 20 succeed, and the next 20 draws are releases. *)
Theorem simulation_can_stall :
  (∀ a fuel ds s h,
      allocated s = [] → alloc_attempts s = 50 → free_count s < 30 →
      simulation_loop a fuel ds s h = Ret s h ∧ looping s = true)
  ∧ ∃ ds a s h,
      simulation 52 ds [] = Ret (a, s) h
      ∧ allocated s = [] ∧ alloc_attempts s = 50 ∧ free_count s = 20.
Proof.
  split.
  - intros a fuel ds s h Hl Ha Hf. split.
    + now apply simulation_loop_stalled.
    + unfold looping. apply orb_true_iff. right. now apply Nat.ltb_lt.
  - exists (replicate 50 (mkDraws true 45) ++ replicate 20 (mkDraws false 0)).
    eexists _, (mkSim [] 50 20), _.
    split; [vm_compute; reflexivity|]. repeat split.
Qed.

Lemma simulation_can_stall_witness :
  simulation_loop arena100 52 [mkDraws true 3; mkDraws false 4]
    (mkSim [] 50 7) round0
  = Ret (mkSim [] 50 7) round0
  ∧ looping (mkSim [] 50 7) = true.
Proof.
  apply (proj1 simulation_can_stall arena100 52
           [mkDraws true 3; mkDraws false 4] (mkSim [] 50 7) round0).
  - reflexivity.
  - reflexivity.
  - simpl. lia.
Defined.

(** ** Fragmentation *)

Lemma unmerged_length pf v :
  unmerged pf v →
  length v
  ≤ 2 * length (filter (fun ln : line => ln.2 = false) v)
    + (if pf then 0 else 1).
Proof.
  revert pf. induction v as [|[[s z] f] v IH]; intros pf Hu.
  - simpl. lia.
  - destruct Hu as [Hpf Hu]. specialize (IH f Hu). rewrite filter_cons.
    cbn [snd]. destruct f.
    + rewrite decide_False by discriminate.
      destruct pf; [now destruct Hpf|]. simpl in *. lia.
    + rewrite decide_True by reflexivity. destruct pf; simpl in *; lia.
Qed.

Lemma used_lines_length h p l n :
  dlseg h p l n →
  length (filter (fun ln : line => ln.2 = false) (view h l))
  = length (filter (fun x => used_b h x = true) l).
Proof.
  revert p. induction l as [|x l IH]; intros p Hs; [reflexivity|].
  destruct Hs as (b & E & _ & _ & Hs). specialize (IH _ Hs).
  change (view h (x :: l))
    with (from_option line_of (0%Z, 0%Z, false) (h !! x) :: view h l).
  rewrite !filter_cons.
  assert (Hub : used_b h x = negb (free b)) by (unfold used_b; now rewrite E).
  rewrite E. cbn [from_option line_of snd].
  destruct (free b); cbn [negb] in Hub.
  - rewrite decide_False by discriminate.
    rewrite decide_False by (rewrite Hub; discriminate). exact IH.
  - rewrite decide_True by reflexivity.
    rewrite decide_True by exact Hub. simpl. now rewrite IH.
Qed.

(** The sequence never has more than twice as many blocks as the driver
    holds handles, plus one. *)
Theorem fragmentation_bound a h outstanding :
  reach a h outstanding →
  ∃ v, (∀ fuel, length v < fuel → print_memory a fuel h = Ret v h)
       ∧ length v ≤ 2 * length outstanding + 1.
Proof.
  intros Hreach.
  destruct (reach_exact _ _ _ Hreach) as (l & (Hc & _ & Hun & Hnd & Hout) & Hu).
  exists (view h l). split.
  - intros fuel Hf. rewrite view_length in Hf.
    now apply print_memory_view with (l := l).
  - pose proof (unmerged_length _ _ Hun) as Hlen.
    pose proof Hc as (_ & Hndl & Hs).
    rewrite (used_lines_length _ _ _ _ Hs) in Hlen.
    assert (Hperm : filter (fun x => used_b h x = true) l ≡ₚ outstanding).
    { apply NoDup_Permutation; [now apply NoDup_filter|exact Hnd|].
      intros x. rewrite list_elem_of_filter, used_b_is_used. split.
      - intros [Hux Hx]. now apply Hu.
      - intros Hx. destruct (Hout x Hx). auto. }
    rewrite Hperm in Hlen. exact Hlen.
Qed.

Lemma fragmentation_bound_witness :
  ∃ v, (∀ fuel, length v < fuel
                → print_memory arena100 fuel round3 = Ret v round3)
       ∧ length v ≤ 2 * length [1] + 1.
Proof. apply (fragmentation_bound arena100 round3 [1]), reach_round3. Defined.

Lemma free_capacity_nonneg v :
  positive_sizes v → (0 <= free_capacity v)%Z.
Proof.
  induction v as [|[[s z] f] v IH]; intros Hpos; simpl; [lia|].
  assert (0 < z)%Z by (apply (Hpos s z f); now left).
  assert (0 <= free_capacity v)%Z.
  { apply IH. intros s' z' f' Hin. apply (Hpos s' z' f'). now right. }
  destruct f; lia.
Qed.

Lemma free_capacity_ge v s z :
  positive_sizes v → (s, z, true) ∈ v → (z <= free_capacity v)%Z.
Proof.
  induction v as [|[[s0 z0] f0] v IH]; intros Hpos Hin.
  - now apply elem_of_nil in Hin.
  - assert (Hpos' : positive_sizes v)
      by (intros s' z' f' Hin'; apply (Hpos s' z' f'); now right).
    pose proof (free_capacity_nonneg v Hpos').
    assert (0 < z0)%Z by (apply (Hpos s0 z0 f0); now left).
    simpl. apply elem_of_cons in Hin as [Heq|Hin].
    + injection Heq as <- <- <-. lia.
    + specialize (IH Hpos' Hin). destruct f0; lia.
Qed.

(** A request that exceeds the free capacity shown by [print_memory] fails
    and changes nothing; in particular every request of a positive size
    fails when all of the memory is handed out. *)
Theorem request_beyond_free_capacity a h outstanding sz :
  reach a h outstanding →
  ∃ v, ∀ fuel, length v < fuel →
         print_memory a fuel h = Ret v h
         ∧ ((free_capacity v < sz)%Z → first_fit a fuel sz h = Ret None h).
Proof.
  intros Hreach.
  destruct (reach_inv _ _ _ Hreach) as (l & Hc & Ht & _).
  exists (view h l). intros fuel Hf. rewrite view_length in Hf.
  split; [now apply print_memory_view|]. intros Hsz.
  apply (first_fit_none a h l); [exact Hc|exact Hf|].
  intros r b Hr E. unfold fits. destruct (free b) eqn:Hfb; [|reflexivity].
  simpl. apply Z.leb_gt.
  assert (size b <= free_capacity (view h l))%Z; [|lia].
  apply (free_capacity_ge _ (start b)); [eapply tiles_positive, Ht|].
  rewrite <- Hfb. apply (view_elem_of _ _ _ _ Hr E).
Qed.

Lemma request_beyond_free_capacity_witness :
  ∃ v, ∀ fuel, length v < fuel →
         print_memory arena100 fuel round2 = Ret v round2
         ∧ ((free_capacity v < 31)%Z
            → first_fit arena100 fuel 31 round2 = Ret None round2).
Proof.
  apply (request_beyond_free_capacity arena100 round2 [0; 1] 31), reach_round2.
Defined.
